(** * The GitLab client of the catalog backend module

    A shallow embedding of
    [plugins/catalog-backend-module-gitlab/src/lib/client.ts]: the
    pagination engine [paginated], the query-string construction
    [listOptionsToQueryString], the request layer [request] /
    [pagedRequest] and the listing operations [listProjects],
    [listGroups] and [listUsers].

    Conventions of the embedding.
    - JavaScript strings are byte strings holding UTF-8 text.
    - JavaScript numbers are IEEE-754 doubles; a number is carried by the
      shortest decimal that denotes its double (see [number]), and
      [Number] rounds a numeral to the nearest double.
    - Promises and [await] are sequential here, so an [async] function is
      a computation in the state-and-exception monad [M]; the state is the
      outside world together with the effects performed so far.
    - The async generator returned by [paginated] is an explicit machine:
      a record holding the request function, the options object and the
      control point, advanced by [step].
    - The constructor gives an object of the class one property,
      [options]. [request] reads [this.config] and [this.logger], which
      the class neither declares nor sets: on an object that the
      constructor made they are [undefined], and reading a property of
      [this.config] throws a TypeError. *)

From Stdlib Require Import ZArith List String Ascii Bool Lia.
From Stdlib Require Import Numbers.DecimalString.
From Stdlib Require Numbers.DecimalPos.
Import ListNotations.
Open Scope list_scope.
Open Scope string_scope.
Open Scope Z_scope.

(* ================================================================= *)
(** ** The JavaScript runtime: values, numbers, strings *)

Module JS.

(** Numbers. [Int z] is the integer [z]; [Frac m e] is [m / 10^e] with
    [m] not a multiple of ten, so every decimal value has one
    representation. A double is carried by the shortest decimal that
    denotes it, which is the decimal that Number::toString prints. The
    sign of zero is not kept ([-0] is [Int 0]; both zeros are falsy and
    print as [0]). *)
Inductive number : Type :=
| NaN
| Infinity (negative : bool)
| Int (z : Z)
| Frac (m : Z) (e : positive).

Inductive value : Type :=
| VUndefined
| VNull
| VBoolean (b : bool)
| VNumber (n : number)
| VString (s : string).

(** Thrown values: an error object with its [name] and [message]. *)
Record exn : Type := mkExn { name : string; message : string }.

Definition Error (msg : string) : exn := mkExn "Error" msg.
Definition TypeError (msg : string) : exn := mkExn "TypeError" msg.

(** ToBoolean. *)
Definition truthy (v : value) : bool :=
  match v with
  | VUndefined | VNull => false
  | VBoolean b => b
  | VNumber NaN => false
  | VNumber (Infinity _) => true
  | VNumber (Int z) => negb (z =? 0)
  | VNumber (Frac m _) => negb (m =? 0)
  | VString s => negb (s =? EmptyString)%string
  end.

(** *** Characters *)

Definition code (c : ascii) : N := N_of_ascii c.

Definition between (lo hi : N) (c : ascii) : bool :=
  ((lo <=? code c) && (code c <=? hi))%N.

Definition is_digit (c : ascii) : bool := between 48 57 c.
Definition is_upper (c : ascii) : bool := between 65 90 c.
Definition is_lower (c : ascii) : bool := between 97 122 c.
Definition is_alnum (c : ascii) : bool := is_digit c || is_upper c || is_lower c.

Fixpoint mem_char (c : ascii) (set : string) : bool :=
  match set with
  | EmptyString => false
  | String d r => (c =? d)%char || mem_char c r
  end.

Definition hex_digit (n : N) : ascii :=
  if (n <? 10)%N then ascii_of_N (48 + n) else ascii_of_N (55 + n).

(** [%XX], with upper-case hexadecimal digits. *)
Definition percent (c : ascii) : string :=
  String "%" (String (hex_digit (code c / 16)) (String (hex_digit (code c mod 16)) EmptyString)).

Fixpoint map_bytes (f : ascii -> string) (s : string) : string :=
  match s with
  | EmptyString => EmptyString
  | String c r => f c ++ map_bytes f r
  end.

(** [encodeURIComponent]: every byte of the UTF-8 encoding is escaped
    except the unreserved characters [A-Z a-z 0-9 - _ . ! ~ * ' ( )]. *)
Definition uri_component_byte (c : ascii) : string :=
  if is_alnum c || mem_char c "-_.!~*'()" then String c EmptyString else percent c.

Definition encodeURIComponent (s : string) : string := map_bytes uri_component_byte s.

(** The application/x-www-form-urlencoded byte serializer used by
    [URLSearchParams]: a space becomes [+], the characters
    [A-Z a-z 0-9 * - . _] stay, every other byte is escaped. *)
Definition urlencoded_byte (c : ascii) : string :=
  if (c =? " ")%char then "+"
  else if is_alnum c || mem_char c "*-._" then String c EmptyString
  else percent c.

Definition urlencoded (s : string) : string := map_bytes urlencoded_byte s.

(** *** URLSearchParams *)

Definition URLSearchParams : Type := list (string * string).

Definition append (search : URLSearchParams) (name value : string) : URLSearchParams :=
  (search ++ [(name, value)])%list.

Definition urlencoded_pair (p : string * string) : string :=
  urlencoded (fst p) ++ "=" ++ urlencoded (snd p).

(** [search.toString()]: the pairs joined by [&]. *)
Definition search_toString (search : URLSearchParams) : string :=
  String.concat "&" (map urlencoded_pair search).

(** *** Number.prototype.toString and Number(string) *)

Definition digits (n : N) : string := NilZero.string_of_uint (N.to_uint n).

Fixpoint zeros (n : nat) : string :=
  match n with
  | O => EmptyString
  | S n' => String "0" (zeros n')
  end.

Fixpoint strip_trailing_zeros (s : string) : string :=
  match s with
  | EmptyString => EmptyString
  | String c r =>
      match strip_trailing_zeros r with
      | EmptyString => if (c =? "0")%char then EmptyString else String c EmptyString
      | r' => String c r'
      end
  end.

(** Number::toString for a positive finite value [s * 10^(n-k)], where
    [s] is the digit string without trailing zeros and [k] its length. *)
Definition positive_toString (s : string) (n : Z) : string :=
  let k := Z.of_nat (String.length s) in
  if (k <=? n) && (n <=? 21) then s ++ zeros (Z.to_nat (n - k))
  else if (0 <? n) && (n <=? 21) then
    substring 0 (Z.to_nat n) s ++ "." ++ substring (Z.to_nat n) (Z.to_nat (k - n)) s
  else if (-6 <? n) && (n <=? 0) then "0." ++ zeros (Z.to_nat (- n)) ++ s
  else
    let e := n - 1 in
    let mantissa :=
      if k =? 1 then s
      else substring 0 1 s ++ "." ++ substring 1 (Z.to_nat (k - 1)) s in
    mantissa ++ "e" ++ (if e <? 0 then "-" else "+") ++ digits (Z.abs_N e).

Definition signed (z : Z) (s : string) : string :=
  if z <? 0 then "-" ++ s else s.

Definition number_toString (x : number) : string :=
  match x with
  | NaN => "NaN"
  | Infinity false => "Infinity"
  | Infinity true => "-Infinity"
  | Int 0 => "0"
  | Int z =>
      let d := digits (Z.abs_N z) in
      signed z (positive_toString (strip_trailing_zeros d) (Z.of_nat (String.length d)))
  | Frac m e =>
      let d := digits (Z.abs_N m) in
      signed m (positive_toString d (Z.of_nat (String.length d) - Z.pos e))
  end.

(** White space of the StringNumericLiteral grammar: the ASCII
    characters TAB, LF, VT, FF, CR and SP, and the UTF-8 encodings of
    U+00A0, U+1680, U+2000 to U+200A, U+2028, U+2029, U+202F, U+205F,
    U+3000 and U+FEFF. *)
Definition ws1 (a : ascii) : bool :=
  between 9 13 a || (code a =? 32)%N.

Definition ws2 (a b : ascii) : bool :=
  ((code a =? 194) && (code b =? 160))%N.

Definition ws3 (a b c : ascii) : bool :=
  ((code a =? 225) && (code b =? 154) && (code c =? 128)
   || (code a =? 226) && (code b =? 128)
      && (between 128 138 c || between 168 169 c || (code c =? 175))
   || (code a =? 226) && (code b =? 129) && (code c =? 159)
   || (code a =? 227) && (code b =? 128) && (code c =? 128)
   || (code a =? 239) && (code b =? 187) && (code c =? 191))%N.

(** Drops leading white space; with [back] the string is read backwards
    (the bytes of a character come in reverse order). *)
Fixpoint strip (back : bool) (s : string) : string :=
  match s with
  | String a r1 =>
      if ws1 a then strip back r1
      else
        match r1 with
        | String b r2 =>
            if (if back then ws2 b a else ws2 a b) then strip back r2
            else
              match r2 with
              | String c r3 =>
                  if (if back then ws3 c b a else ws3 a b c) then strip back r3 else s
              | EmptyString => s
              end
        | EmptyString => s
        end
  | EmptyString => s
  end.

Fixpoint rev_string (acc s : string) : string :=
  match s with
  | EmptyString => acc
  | String c r => rev_string (String c acc) r
  end.

Definition trim (s : string) : string :=
  rev_string EmptyString (strip true (rev_string EmptyString (strip false s))).

Definition digit_value (c : ascii) : option N :=
  if is_digit c then Some (code c - 48)%N
  else if between 97 102 c then Some (code c - 87)%N
  else if between 65 70 c then Some (code c - 55)%N
  else None.

(** The value of a string made only of digits of the radix. *)
Fixpoint read_digits (radix acc : N) (s : string) : option N :=
  match s with
  | EmptyString => Some acc
  | String c r =>
      match digit_value c with
      | Some d => if (d <? radix)%N then read_digits radix (acc * radix + d)%N r else None
      | None => None
      end
  end.

Fixpoint span_digits (s : string) : string * string :=
  match s with
  | EmptyString => (EmptyString, EmptyString)
  | String c r =>
      if is_digit c then let (d, rest) := span_digits r in (String c d, rest)
      else (EmptyString, s)
  end.

(** An optional ExponentPart that must reach the end of the string. *)
Definition parse_exponent (s : string) : option Z :=
  match s with
  | EmptyString => Some 0
  | String c r =>
      if mem_char c "eE" then
        let (negative, ds) :=
          match r with
          | String "-" r' => (true, r')
          | String "+" r' => (false, r')
          | _ => (false, r)
          end in
        match ds with
        | EmptyString => None
        | _ => option_map (fun n => if negative then - Z.of_N n else Z.of_N n)
                 (read_digits 10 0 ds)
        end
      else None
  end.

(** [m / 10^d] for [m <> 0], in canonical form. *)
Fixpoint shift_down (d : nat) (m : Z) : number :=
  match d with
  | O => Int m
  | S d' => if m mod 10 =? 0 then shift_down d' (m / 10) else Frac m (Pos.of_succ_nat d')
  end.

(** The decimal [m * 10^x], for [m <> 0], as a number. *)
Definition decimal (m x : Z) : number :=
  if 0 <=? x then Int (m * 10 ^ x) else shift_down (Z.to_nat (- x)) m.

(** *** Rounding to a double

    A number is an IEEE-754 binary64 value. A finite double other than
    zero is [m * 2^e] with [2^52 <= m < 2^53] and [-1074 <= e <= 971]
    (normal) or with [0 < m < 2^52] and [e = -1074] (subnormal). A number
    carries the shortest decimal that denotes its double, the one that
    Number::toString prints. *)

(** The integer [l] with [2^l <= a / b < 2^(l+1)], for positive [a], [b]. *)
Definition log2_ratio (a b : Z) : Z :=
  let l := Z.log2 a - Z.log2 b in
  if (if 0 <=? l then b * 2 ^ l <=? a else b <=? a * 2 ^ (- l)) then l else l - 1.

(** [a / b] rounded to the nearest integer, ties to the even one. *)
Definition round_half_even (a b : Z) : Z :=
  let q := a / b in
  let r := a mod b in
  if 2 * r <? b then q
  else if b <? 2 * r then q + 1
  else if Z.even q then q else q + 1.

(** The double nearest to [a / b], for positive [a] and [b]: its [m] and
    [e] ([m = 0] when the value rounds to zero), or [None] when it rounds
    to infinity. *)
Definition nearest_double (a b : Z) : option (Z * Z) :=
  let e := Z.max (log2_ratio a b - 52) (- 1074) in
  let m := if 0 <=? e then round_half_even a (b * 2 ^ e)
           else round_half_even (a * 2 ^ (- e)) b in
  let (m, e) := if m =? 2 ^ 53 then (2 ^ 52, e + 1) else (m, e) in
  if 971 <? e then None else Some (m, e).

(** The double nearest to the decimal [s * 10^x], for positive [s]. *)
Definition nearest_to_decimal (s x : Z) : option (Z * Z) :=
  if 0 <=? x then nearest_double (s * 10 ^ x) 1 else nearest_double s (10 ^ (- x)).

Definition same_double (d1 d2 : option (Z * Z)) : bool :=
  match d1, d2 with
  | Some (m1, e1), Some (m2, e2) => (m1 =? m2) && (e1 =? e2)
  | _, _ => false
  end.

(** The shortest decimal that rounds to the double [m * 2^e], searched
    from [k] significant digits on: the double is the decimal
    [D * 10^E] exactly, [D] having [nd] digits; with [k] digits the two
    candidates are [D] cut after [k] digits and the next one; of two
    candidates that round to the double, the one nearer to it is taken. *)
Fixpoint shortest (fuel : nat) (m e D E nd k : Z) : Z * Z :=
  match fuel with
  | O => (D, E)
  | S fuel' =>
      let j := nd - k in
      if j <=? 0 then (D, E)
      else
        let lo := D / 10 ^ j in
        let r := D mod 10 ^ j in
        let hi := lo + 1 in
        let ok_lo := same_double (nearest_to_decimal lo (E + j)) (Some (m, e)) in
        let ok_hi := same_double (nearest_to_decimal hi (E + j)) (Some (m, e)) in
        if ok_lo && ok_hi then
          if 2 * r <? 10 ^ j then (lo, E + j)
          else if 10 ^ j <? 2 * r then (hi, E + j)
          else if Z.even lo then (lo, E + j) else (hi, E + j)
        else if ok_lo then (lo, E + j)
        else if ok_hi then (hi, E + j)
        else shortest fuel' m e D E nd (k + 1)
  end.

(** The number that is the double [m * 2^e], [m > 0]. *)
Definition of_double (negative : bool) (m e : Z) : number :=
  let D := if 0 <=? e then m * 2 ^ e else m * 5 ^ (- e) in
  let E := Z.min e 0 in
  let nd := Z.of_nat (String.length (digits (Z.to_N D))) in
  let (s, x) := shortest 17 m e D E nd 1 in
  decimal (if negative then - s else s) x.

(** The number nearest to the decimal [m * 10^x]. An integer up to
    [2^53] is a double and its own shortest decimal. A decimal of more
    than 400 digits before the point is beyond the largest double, and one
    with more than 400 zeros after the point is below half the smallest. *)
Definition of_decimal (negative : bool) (m : N) (x : Z) : number :=
  if (m =? 0)%N then Int 0
  else
    let z := Z.of_N m in
    let n := Z.of_nat (String.length (digits m)) + x in
    let rounded :=
      match nearest_to_decimal z x with
      | None => Infinity negative
      | Some (0, _) => Int 0
      | Some (d, e) => of_double negative d e
      end in
    if 400 <? n then Infinity negative
    else if n <? - 400 then Int 0
    else if 0 <=? x then
      if z * 10 ^ x <=? 2 ^ 53 then Int ((if negative then - z else z) * 10 ^ x)
      else rounded
    else rounded.

(** StrUnsignedDecimalLiteral, after the sign. *)
Definition parse_unsigned_decimal (negative : bool) (s : string) : number :=
  if (s =? "Infinity")%string then Infinity negative
  else
    let (ip, r1) := span_digits s in
    let (fp, r2) :=
      match r1 with
      | String "." r => span_digits r
      | _ => (EmptyString, r1)
      end in
    match ip ++ fp with
    | EmptyString => NaN
    | ds =>
        match read_digits 10 0 ds, parse_exponent r2 with
        | Some m, Some e => of_decimal negative m (e - Z.of_nat (String.length fp))
        | _, _ => NaN
        end
    end.

(** NonDecimalIntegerLiteral, after the prefix. *)
Definition parse_radix (radix : N) (ds : string) : number :=
  match ds with
  | EmptyString => NaN
  | _ =>
      match read_digits radix 0 ds with
      | Some n => of_decimal false n 0
      | None => NaN
      end
  end.

(** [Number(s)] for a string [s] (StringToNumber): [NaN] when the
    trimmed string is not a StringNumericLiteral, zero when it is empty,
    and otherwise the double nearest to the value of the literal. *)
Definition Number (s : string) : number :=
  match trim s with
  | EmptyString => Int 0
  | String "+" r => parse_unsigned_decimal false r
  | String "-" r => parse_unsigned_decimal true r
  | String "0" (String c r) as t =>
      if mem_char c "xX" then parse_radix 16 r
      else if mem_char c "oO" then parse_radix 8 r
      else if mem_char c "bB" then parse_radix 2 r
      else parse_unsigned_decimal false t
  | t => parse_unsigned_decimal false t
  end.

(** [v.toString()]; reading a property of [undefined] or [null] throws. *)
Definition toString (v : value) : exn + string :=
  match v with
  | VUndefined => inl (TypeError "Cannot read properties of undefined (reading 'toString')")
  | VNull => inl (TypeError "Cannot read properties of null (reading 'toString')")
  | VBoolean true => inr "true"
  | VBoolean false => inr "false"
  | VNumber n => inr (number_toString n)
  | VString s => inr s
  end.

End JS.

Import JS.

(* ================================================================= *)
(** ** Data model *)

(** [ListOptions]: the own properties of the object, in the order in
    which [for ... in] enumerates them. *)
Definition ListOptions : Type := list (string * value).

Definition keys (o : ListOptions) : list string := map fst o.

(** [o[key]]: a missing property reads as [undefined]. *)
Fixpoint get (o : ListOptions) (key : string) : value :=
  match o with
  | [] => VUndefined
  | (k, v) :: r => if (k =? key)%string then v else get r key
  end.

(** [o[key] = v]: an existing property keeps its place, a new one comes
    last (the program only assigns the key [page], which is not an
    integer index). *)
Fixpoint set (o : ListOptions) (key : string) (v : value) : ListOptions :=
  match o with
  | [] => [(key, v)]
  | (k, w) :: r => if (k =? key)%string then (k, v) :: r else (k, w) :: set r key v
  end.

(** [...(c && { key: v })] inside an object literal: the property is
    added when [c] is truthy, nothing otherwise. *)
Definition spread_if (c : value) (key : string) (v : value) : ListOptions :=
  if truthy c then [(key, v)] else [].

Record PagedResponse (T : Type) : Type := mkPaged {
  items : list T;
  nextPage : value
}.
Arguments mkPaged {T} _ _.
Arguments items {T} _.
Arguments nextPage {T} _.

(* ================================================================= *)
(** ** Asynchronous computations *)

(** A computation over a state [S] that returns a value or throws. *)
Definition M (W A : Type) : Type := W -> (exn + A) * W.

Definition ret {W A : Type} (a : A) : M W A := fun s => (inr a, s).

Definition throw {W A : Type} (e : exn) : M W A := fun s => (inl e, s).

Definition lift {W A : Type} (r : exn + A) : M W A := fun s => (r, s).

Definition bind {W A B : Type} (m : M W A) (k : A -> M W B) : M W B :=
  fun s =>
    match m s with
    | (inr a, s') => k a s'
    | (inl e, s') => (inl e, s')
    end.

Notation "x <- m ;; k" := (bind m (fun x => k))
  (at level 61, m at next level, right associativity).

(* ================================================================= *)
(** ** Query parameter serialization *)

(** The body of the [for (const key in options)] loop, over the keys
    still to visit. *)
Fixpoint for_in (options : ListOptions) (ks : list string) (search : URLSearchParams)
  : exn + URLSearchParams :=
  match ks with
  | [] => inr search
  | key :: ks' =>
      if truthy (get options key) then
        match toString (get options key) with
        | inr s => for_in options ks' (append search key s)
        | inl e => inl e
        end
      else for_in options ks' search
  end.

Definition listOptionsToQueryString (options : option ListOptions) : exn + string :=
  match for_in (match options with Some o => o | None => [] end)
               (match options with Some o => keys o | None => [] end) [] with
  | inr search =>
      let query := search_toString search in
      inr (if (query =? EmptyString)%string then EmptyString else "?" ++ query)
  | inl e => inl e
  end.

(* ================================================================= *)
(** ** The pagination engine *)

(** Where the generator body stands: before [request(options)], inside
    the [for ... of] over the items still to yield (with the
    [res.nextPage] that the [while] will test), or completed. *)
Inductive control (T : Type) : Type :=
| Loop
| Items (rest : list T) (next : value)
| Done.
Arguments Loop {T}.
Arguments Items {T} _ _.
Arguments Done {T}.

Record AsyncGenerator (W T : Type) : Type := mkGenerator {
  g_request : ListOptions -> M W (PagedResponse T);
  g_options : ListOptions;
  g_control : control T
}.
Arguments mkGenerator {W T} _ _ _.
Arguments g_request {W T} _.
Arguments g_options {W T} _.
Arguments g_control {W T} _.

(** Calling the generator function runs nothing yet. *)
Definition paginated {W T : Type}
  (request : ListOptions -> M W (PagedResponse T)) (options : ListOptions)
  : AsyncGenerator W T :=
  mkGenerator request options Loop.

(** What a run of the generator does, in order. *)
Inductive signal (T : Type) : Type :=
| Fetched (options : ListOptions) (res : exn + PagedResponse T)
| Yielded (item : T)
| Thrown (e : exn)
| Returned.
Arguments Fetched {T} _ _.
Arguments Yielded {T} _.
Arguments Thrown {T} _.
Arguments Returned {T}.

(** One move of the generator body. *)
Definition step {W T : Type} (g : AsyncGenerator W T) (s : W)
  : list (signal T) * AsyncGenerator W T * W :=
  match g_control g with
  | Loop =>
      match g_request g (g_options g) s with
      | (inl e, s') =>
          ([Fetched (g_options g) (inl e); Thrown e],
           mkGenerator (g_request g) (g_options g) Done, s')
      | (inr res, s') =>
          ([Fetched (g_options g) (inr res)],
           mkGenerator (g_request g) (set (g_options g) "page" (nextPage res))
             (Items (items res) (nextPage res)), s')
      end
  | Items (item :: rest) next =>
      ([Yielded item], mkGenerator (g_request g) (g_options g) (Items rest next), s)
  | Items [] next =>
      if truthy next then ([], mkGenerator (g_request g) (g_options g) Loop, s)
      else ([Returned], mkGenerator (g_request g) (g_options g) Done, s)
  | Done => ([], g, s)
  end.

Fixpoint run {W T : Type} (n : nat) (g : AsyncGenerator W T) (s : W)
  : list (signal T) * AsyncGenerator W T * W :=
  match n with
  | O => ([], g, s)
  | S n' =>
      let '(tr, g', s') := step g s in
      let '(tr', g'', s'') := run n' g' s' in
      ((tr ++ tr')%list, g'', s'')
  end.

(** Observations of a trace. *)
Fixpoint yielded {T : Type} (tr : list (signal T)) : list T :=
  match tr with
  | [] => []
  | Yielded x :: r => x :: yielded r
  | _ :: r => yielded r
  end.

Fixpoint fetches {T : Type} (tr : list (signal T)) : list (ListOptions * (exn + PagedResponse T)) :=
  match tr with
  | [] => []
  | Fetched o r :: tr' => (o, r) :: fetches tr'
  | _ :: tr' => fetches tr'
  end.

Fixpoint thrown {T : Type} (tr : list (signal T)) : list exn :=
  match tr with
  | [] => []
  | Thrown e :: r => e :: thrown r
  | _ :: r => thrown r
  end.

(* ================================================================= *)
(** ** External collaborators *)

(** The part of an integration's configuration that the client reads. *)
Record GitLabIntegrationConfig : Type := mkConfig {
  host : string;
  apiBaseUrl : string;
  baseUrl : string
}.

Record GitLabIntegration : Type := mkIntegration {
  config : GitLabIntegrationConfig
}.

(** A [Response] of the transport. [ok] is the getter of the Fetch
    standard (status in the range 200 to 299); [headers.get] finds the
    value stored under a lower-case name, or [null]; [json()] decodes the
    body, assumed to be an array of items, or throws. *)
Record Response (T : Type) : Type := mkResponse {
  status : Z;
  statusText : string;
  headers : list (string * string);
  json : exn + list T
}.
Arguments mkResponse {T} _ _ _ _.
Arguments status {T} _.
Arguments statusText {T} _.
Arguments headers {T} _.
Arguments json {T} _.

Definition ok {T : Type} (response : Response T) : bool :=
  (200 <=? status response) && (status response <=? 299).

Fixpoint headers_get (hs : list (string * string)) (name : string) : option string :=
  match hs with
  | [] => None
  | (k, v) :: r => if (k =? name)%string then Some v else headers_get r name
  end.

(** What the module imports and does not define: the transport [fetch]
    acting on the outside world, the URL parser ([new URL(s)], given by
    the serialization [toString()] of the parsed URL, or the TypeError of
    an invalid URL), the request options of the integration package,
    lodash's [merge], and [parseGroupUrl] of [./url], which returns the
    group path of a target URL or [null]. *)
Class Imports : Type := {
  World : Type;
  RequestInit : Type;
  Item : Type;
  fetch : string -> RequestInit -> World -> (exn + Response Item) * World;
  URL : string -> exn + string;
  getGitLabRequestOptions : GitLabIntegrationConfig -> RequestInit;
  merge : RequestInit -> option RequestInit -> RequestInit;
  parseGroupUrl : string -> string -> exn + option string
}.

(* ================================================================= *)
(** ** The client *)

Section Client.

Context {I : Imports}.

(** Effects of the client, as the outside sees them. *)
Inductive effect : Type :=
| Debug (msg : string)
| Fetch (url : string) (init : RequestInit).

Record store : Type := mkStore {
  world : World;
  effects : list effect
}.

(** A winston logger; its [debug] method leaves a line in the effects. *)
Inductive Logger : Type := winston.

Definition logger_debug (logger : Logger) (msg : string) : M store unit :=
  fun s => (inr tt, mkStore (world s) (effects s ++ [Debug msg])%list).

(** [this]: an object on which the methods of the class run. [byUrl] is
    the integration registry of its property [options]
    ([this.options.integrations.gitlab.byUrl]). [this_config] and
    [this_logger] are what [this.config] and [this.logger] read: the
    class neither declares nor sets these properties, so they are
    [undefined], here [None], unless something outside the class has put
    them on the object. *)
Record GitLabClient : Type := mkObject {
  byUrl : string -> option GitLabIntegration;
  this_config : option GitLabIntegrationConfig;
  this_logger : option Logger
}.

(** [new GitLabClient({ integrations, logger })]: the constructor has an
    empty body and keeps its argument as [options]; the logger handed to
    it stays inside [options], where no method looks for it. *)
Definition new_GitLabClient (integrations : string -> option GitLabIntegration)
  (logger : Logger) : GitLabClient :=
  mkObject integrations None None.

(** What reading the property [p] of [undefined] throws. *)
Definition undefined_property (p : string) : exn :=
  TypeError ("Cannot read properties of undefined (reading '" ++ p ++ "')").

Definition await_fetch (url : string) (init : RequestInit) : M store (Response Item) :=
  fun s =>
    let (r, w) := fetch url init (world s) in
    (r, mkStore w (effects s ++ [Fetch url init])%list).

Definition unexpected_response (url : string) (response : Response Item) : string :=
  "Unexpected response when fetching " ++ url ++ ". Expected 200 but got "
  ++ number_toString (Int (status response)) ++ " - " ++ statusText response.

(** [request]. Its first statement reads [this.config.apiBaseUrl] and
    its second one calls [this.logger.debug]: each throws a TypeError
    when the property of [this] is [undefined]. *)
Definition request (this : GitLabClient) (endpoint : string) (init : option RequestInit)
  : M store (Response Item) :=
  match this_config this with
  | None => throw (undefined_property "apiBaseUrl")
  | Some config =>
      request <- lift (URL (apiBaseUrl config ++ endpoint)) ;;
      match this_logger this with
      | None => throw (undefined_property "debug")
      | Some logger =>
          _ <- logger_debug logger ("Fetching: " ++ request) ;;
          response <- await_fetch request (merge (getGitLabRequestOptions config) init) ;;
          if negb (ok response) then throw (Error (unexpected_response request response))
          else ret response
      end
  end.

(** The callback of [response.json().then(...)] in [pagedRequest]: the
    page made of the decoded items and of the next-page header. *)
Definition paged_response (response : Response Item) (items : list Item)
  : PagedResponse Item :=
  let nextPage := headers_get (headers response) "x-next-page" in
  mkPaged items
    match nextPage with
    | Some h => if truthy (VString h) then VNumber (Number h) else VNull
    | None => VNull
    end.

Definition pagedRequest (this : GitLabClient) (endpoint : string) (options : option ListOptions)
  : M store (PagedResponse Item) :=
  queryString <- lift (listOptionsToQueryString options) ;;
  response <- request this (endpoint ++ queryString) None ;;
  items <- lift (json response) ;;
  ret (paged_response response items).

Definition InputError (msg : string) : exn := mkExn "InputError" msg.

Definition getIntegration (this : GitLabClient) (url : string) : M store GitLabIntegration :=
  match byUrl this url with
  | None =>
      throw (InputError ("No GitLab integration found for URL " ++ url
               ++ ", Please add a configuration entry for it under integrations.gitlab."))
  | Some integration => ret integration
  end.

(** [if (groupFullPath)]: a string that is not empty. *)
Definition group_of (groupFullPath : option string) : value :=
  match groupFullPath with
  | Some g => VString g
  | None => VNull
  end.

Record ProjectsOptions : Type := mkProjectsOptions {
  last_activity_after : option string
}.

(** [options?.last_activity_after]. *)
Definition opt_last_activity_after (options : option ProjectsOptions) : value :=
  match options with
  | Some o => match last_activity_after o with Some s => VString s | None => VUndefined end
  | None => VUndefined
  end.

Definition listProjects (this : GitLabClient) (targetUrl : string)
  (options : option ProjectsOptions) : M store (AsyncGenerator store Item) :=
  integration <- getIntegration this targetUrl ;;
  groupFullPath <- lift (parseGroupUrl targetUrl (baseUrl (config integration))) ;;
  if truthy (group_of groupFullPath) then
    let endpoint :=
      apiBaseUrl (config integration) ++ "/groups/"
      ++ encodeURIComponent (match groupFullPath with Some g => g | None => EmptyString end)
      ++ "/projects" in
    ret (paginated (fun o => pagedRequest this endpoint (Some o))
           ([("per_page", VNumber (Int 100)); ("include_subgroups", VBoolean true)]
            ++ spread_if (opt_last_activity_after options) "last_activity_after"
                 (opt_last_activity_after options))%list)
  else
    ret (paginated (fun o => pagedRequest this "/projects" (Some o))
           ([("per_page", VNumber (Int 100))]
            ++ spread_if (opt_last_activity_after options) "last_activity_after"
                 (opt_last_activity_after options))%list).

Definition listGroups (this : GitLabClient) (targetUrl : string)
  : M store (AsyncGenerator store Item) :=
  integration <- getIntegration this targetUrl ;;
  ret (paginated
         (fun options => pagedRequest this (apiBaseUrl (config integration) ++ "/groups") (Some options))
         [("per_page", VNumber (Int 100))]).

Record UsersOptions : Type := mkUsersOptions {
  inherited : option bool;
  blocked : option bool
}.

Definition opt_bool (b : option bool) : value :=
  match b with
  | Some b => VBoolean b
  | None => VUndefined
  end.

(** [options?.inherited] and [options?.blocked]. *)
Definition opt_inherited (options : option UsersOptions) : value :=
  match options with
  | Some o => opt_bool (inherited o)
  | None => VUndefined
  end.

Definition opt_blocked (options : option UsersOptions) : value :=
  match options with
  | Some o => opt_bool (blocked o)
  | None => VUndefined
  end.

(** [a ?? b]. *)
Definition nullish (a b : value) : value :=
  match a with
  | VUndefined | VNull => b
  | _ => a
  end.

Definition listUsers (this : GitLabClient) (targetUrl : string)
  (options : option UsersOptions) : M store (AsyncGenerator store Item) :=
  integration <- getIntegration this targetUrl ;;
  groupFullPath <- lift (parseGroupUrl targetUrl (baseUrl (config integration))) ;;
  if truthy (group_of groupFullPath) then
    let inherited := nullish (opt_inherited options) (VBoolean true) in
    let endpoint :=
      "/groups/"
      ++ encodeURIComponent (match groupFullPath with Some g => g | None => EmptyString end)
      ++ "/members" ++ (if truthy inherited then "/all" else EmptyString) in
    ret (paginated (fun opts => pagedRequest this endpoint (Some opts))
           ([("per_page", VNumber (Int 100))]
            ++ spread_if (opt_blocked options) "blocked" (VBoolean true))%list)
  else if negb (host (config integration) =? "gitlab.com")%string then
    throw (Error "Getting all GitLab instance users is only supported for self-managed hosts.")
  else
    ret (paginated (fun opts => pagedRequest this "/users" (Some opts))
           [("active", VBoolean true); ("per_page", VNumber (Int 100))]).

(** [pagedRequest] from its call of [request] on: the request for
    [path], the endpoint followed by the query string, and the page made
    from the response. *)
Definition page_from (this : GitLabClient) (path : string) : M store (PagedResponse Item) :=
  response <- request this path None ;;
  items <- lift (json response) ;;
  ret (paged_response response items).

End Client.

(* ================================================================= *)
(** ** Vocabulary of the properties *)

(** The page that a request for [o] asks for: the first one when [page]
    is absent, page [k] when it is the integer [k]. *)
Definition page_number (o : ListOptions) : option Z :=
  match get o "page" with
  | VUndefined => Some 1
  | VNumber (Int k) => Some k
  | _ => None
  end.

(** [request] serves the pages [pages]: asked for page [k] it returns
    the items of the [k]-th list; it reports [k + 1] as the next page
    when [k] is not the last page and no next page when it is. *)
Definition serves {W T : Type} (pages : list (list T))
  (request : ListOptions -> M W (PagedResponse T)) : Prop :=
  forall (o : ListOptions) (s : W) (k : nat),
    page_number o = Some (Z.of_nat (S k)) ->
    (k < List.length pages)%nat ->
    exists res s',
      request o s = (inr res, s')
      /\ items res = nth k pages []
      /\ ((S k < List.length pages)%nat ->
          nextPage res = VNumber (Int (Z.of_nat (S (S k)))))
      /\ ((S k = List.length pages)%nat ->
          nextPage res = VUndefined \/ nextPage res = VNull).

(** [request] serves the pages [pages] in the order of its calls, whatever
    the options: from the state [s], its next call returns the first list
    of items, reporting [k + 1] as the next page ([k] being the number of
    the page served) or no next page when the list is the last one. *)
Fixpoint serves_in_order {W T : Type} (k : nat) (pages : list (list T))
  (request : ListOptions -> M W (PagedResponse T)) (s : W) : Prop :=
  match pages with
  | [] => True
  | p :: rest =>
      forall o : ListOptions,
      exists res s',
        request o s = (inr res, s')
        /\ items res = p
        /\ match rest with
           | [] => nextPage res = VUndefined \/ nextPage res = VNull
           | _ :: _ => nextPage res = VNumber (Int (Z.of_nat (S k)))
           end
        /\ serves_in_order (S k) rest request s'
  end.

(** The walk of the generator [g] from the state [s] reaches its end,
    with trace [tr] and final state [s']. *)
Definition completes {W T : Type} (g : AsyncGenerator W T) (s : W)
  (tr : list (signal T)) (s' : W) : Prop :=
  exists n g', run n g s = (tr, g', s') /\ g_control g' = Done.

(** Successive fetches of one walk that starts with the options [o]:
    the first is made with [o]; each later one follows a response whose
    next-page value is truthy and is made with the options of the fetch
    before it, [page] set to that value. *)
Fixpoint chained {T : Type} (o : ListOptions)
  (fs : list (ListOptions * (exn + PagedResponse T))) : Prop :=
  match fs with
  | [] => True
  | (o1, r1) :: rest =>
      o1 = o
      /\ match rest with
         | [] => True
         | _ :: _ =>
             match r1 with
             | inr res1 =>
                 truthy (nextPage res1) = true
                 /\ chained (set o "page" (nextPage res1)) rest
             | inl _ => False
             end
         end
  end.

(** The options object after the fetches [fs]. *)
Fixpoint final_options {T : Type} (o : ListOptions)
  (fs : list (ListOptions * (exn + PagedResponse T))) : ListOptions :=
  match fs with
  | [] => o
  | (_, inr res) :: rest => final_options (set o "page" (nextPage res)) rest
  | (_, inl _) :: rest => final_options o rest
  end.

(** The response of the most recent successful fetch. *)
Fixpoint last_response {T : Type} (fs : list (ListOptions * (exn + PagedResponse T)))
  (seen : option (PagedResponse T)) : option (PagedResponse T) :=
  match fs with
  | [] => seen
  | (_, inr res) :: rest => last_response rest (Some res)
  | (_, inl _) :: rest => last_response rest seen
  end.

(** The page that a value of [page] asks for: the value of the query
    parameter [page], and the first page when there is none (a falsy
    [page] is left out of the query string). *)
Definition page_of (v : value) : string :=
  if truthy v then
    match toString v with
    | inr str => str
    | inl _ => "1"
    end
  else "1".

(** The pages that the fetches asked for. *)
Definition pages_asked {T : Type} (fs : list (ListOptions * (exn + PagedResponse T)))
  : list string :=
  map (fun f => page_of (get (fst f) "page")) fs.

(** The next pages that the walk went on to: those named by the
    responses of all fetches but the last. *)
Fixpoint pages_followed {T : Type} (fs : list (ListOptions * (exn + PagedResponse T)))
  : list string :=
  match fs with
  | [] => []
  | (_, r) :: rest =>
      match rest with
      | [] => []
      | _ :: _ =>
          match r with
          | inr res => page_of (nextPage res) :: pages_followed rest
          | inl _ => pages_followed rest
          end
      end
  end.

(** A fetch that succeeded and reported a truthy next page. *)
Definition has_next {T : Type} (f : ListOptions * (exn + PagedResponse T)) : Prop :=
  exists res, snd f = inr res /\ truthy (nextPage res) = true.

(** What holds of the trace [tr] and the generator [g] at every point of
    a walk started by [paginated request options]. *)
Definition walk_invariant {W T : Type} (request : ListOptions -> M W (PagedResponse T))
  (options : ListOptions) (tr : list (signal T)) (g : AsyncGenerator W T) : Prop :=
  g_request g = request
  /\ g_options g = final_options options (fetches tr)
  /\ chained options (fetches tr)
  /\ match g_control g with
     | Loop =>
         thrown tr = [] /\ ~ In Returned tr /\ Forall has_next (fetches tr)
     | Items _ next =>
         thrown tr = [] /\ ~ In Returned tr
         /\ exists fs o res, fetches tr = (fs ++ [(o, inr res)])%list /\ next = nextPage res
     | Done =>
         (exists fs o res,
             fetches tr = (fs ++ [(o, inr res)])%list
             /\ truthy (nextPage res) = false /\ thrown tr = [] /\ In Returned tr)
         \/ (exists fs o e,
                fetches tr = (fs ++ [(o, inl e)])%list
                /\ thrown tr = [e] /\ ~ In Returned tr)
     end.

(** [part] occurs inside [whole]. *)
Definition contains (whole part : string) : Prop :=
  exists before after, whole = before ++ part ++ after.

(** The query string of the initial options of a project listing. *)
Definition projects_query (grouped : bool) (options : option ProjectsOptions) : string :=
  "?per_page=100"
  ++ (if grouped then "&include_subgroups=true" else EmptyString)
  ++ match options with
     | Some {| last_activity_after := Some (String c d) |} =>
         "&last_activity_after=" ++ urlencoded (String c d)
     | _ => EmptyString
     end.

(** The three parts of what [run] returns. *)
Definition trace_of {W T : Type} (r : list (signal T) * AsyncGenerator W T * W)
  : list (signal T) := fst (fst r).

Definition generator_of {W T : Type} (r : list (signal T) * AsyncGenerator W T * W)
  : AsyncGenerator W T := snd (fst r).

(** The trace that the fetches [fs] stand for: each successful fetch
    followed by the items of its page, a failed one by the throw. *)
Fixpoint blocks {T : Type} (fs : list (ListOptions * (exn + PagedResponse T)))
  : list (signal T) :=
  match fs with
  | [] => []
  | (o, inr res) :: rest => (Fetched o (inr res) :: map Yielded (items res) ++ blocks rest)%list
  | (o, inl e) :: rest => Fetched o (inl e) :: Thrown e :: blocks rest
  end.

(** The item lists of the pages fetched successfully, in order. *)
Fixpoint pages_served {T : Type} (fs : list (ListOptions * (exn + PagedResponse T)))
  : list (list T) :=
  match fs with
  | [] => []
  | (_, inr res) :: rest => items res :: pages_served rest
  | (_, inl _) :: rest => pages_served rest
  end.

(** The trace [tr] of a walk that stands at [g] is made of whole blocks:
    up to the items still to yield, and to the final return. *)
Definition in_blocks {W T : Type} (tr : list (signal T)) (g : AsyncGenerator W T) : Prop :=
  match g_control g with
  | Loop => tr = blocks (fetches tr)
  | Items rest _ => (tr ++ map Yielded rest)%list = blocks (fetches tr)
  | Done => tr = blocks (fetches tr) \/ tr = (blocks (fetches tr) ++ [Returned])%list
  end.

(** How often the character [c] occurs in [s]. *)
Fixpoint count_char (c : ascii) (s : string) : nat :=
  match s with
  | EmptyString => O
  | String d r => ((if (c =? d)%char then 1 else 0) + count_char c r)%nat
  end.

(* ================================================================= *)
(** ** A concrete world *)

Module Demo.

(** A page server over a call counter, serving [pages] by page number. *)
Definition serve_pages {T : Type} (pages : list (list T)) (o : ListOptions)
  : M nat (PagedResponse T) :=
  fun calls =>
    match page_number o with
    | Some k =>
        if (1 <=? k) && (k <=? Z.of_nat (List.length pages)) then
          (inr (mkPaged (nth (Z.to_nat (k - 1)) pages [])
                  (if k <? Z.of_nat (List.length pages) then VNumber (Int (k + 1)) else VUndefined)),
           S calls)
        else (inl (Error "no such page"), S calls)
    | None => (inl (Error "bad page"), S calls)
    end.

Definition three_pages : list (list string) := [["a"; "b"]; ["c"]; ["d"; "e"]].

(** A server whose every response names page 2 as the next page. *)
Definition stuck_on_page_2 (o : ListOptions) : M nat (PagedResponse string) :=
  fun calls => (inr (mkPaged ["x"] (VNumber (Int 2))), S calls).

(** A server whose response names page 0 as the next page. *)
Definition next_is_zero (o : ListOptions) : M nat (PagedResponse string) :=
  fun calls => (inr (mkPaged ["x"] (VNumber (Int 0))), S calls).

(** A server whose second page cannot be fetched. *)
Definition second_page_fails (o : ListOptions) : M nat (PagedResponse string) :=
  fun calls =>
    match get o "page" with
    | VUndefined => (inr (mkPaged ["a"; "b"] (VNumber (Int 2))), S calls)
    | _ => (inl (Error "connection reset"), S calls)
    end.

Definition self_managed : GitLabIntegrationConfig :=
  mkConfig "gitlab.example.com" "https://gitlab.example.com/api/v4" "https://gitlab.example.com".

Definition saas : GitLabIntegrationConfig :=
  mkConfig "gitlab.com" "https://gitlab.com/api/v4" "https://gitlab.com".

Definition page (code : Z) (text : string) (hs : list (string * string)) (body : list string)
  : Response string :=
  mkResponse code text hs (inr body).

(** The remote: the response to each URL; anything else is not found. *)
Definition routes : list (string * Response string) :=
  [ ("https://gitlab.com/api/v4/users?active=true&per_page=100",
     page 200 "OK" [("x-next-page", "2")] ["alice"; "bob"]);
    ("https://gitlab.com/api/v4/users?active=true&per_page=100&page=2",
     page 200 "OK" [("x-next-page", EmptyString)] ["carol"]);
    ("https://gitlab.com/api/v4/projects?per_page=100",
     page 200 "OK" [] ["website"]);
    ("https://gitlab.com/api/v4/groups/team/members/all?per_page=100",
     page 200 "OK" [] ["dave"]);
    ("https://gitlab.com/api/v4/odd?per_page=100",
     page 200 "OK" [("x-next-page", "abc")] ["erin"]);
    ("https://gitlab.com/api/v4/empty",
     page 204 "No Content" [] []) ].

Fixpoint route (rs : list (string * Response string)) (url : string) : Response string :=
  match rs with
  | [] => page 404 "Not Found" [] []
  | (u, r) :: rest => if (u =? url)%string then r else route rest url
  end.

#[local] Instance imports : Imports := {|
  World := nat;
  RequestInit := list (string * string);
  Item := string;
  fetch := fun url _ served => (inr (route routes url), S served);
  URL := fun s => if prefix "https://" s then inr s else inl (TypeError "Invalid URL");
  getGitLabRequestOptions := fun _ => [("private-token", "secret")];
  merge := fun defaults init =>
    match init with
    | Some overrides => (overrides ++ defaults)%list
    | None => defaults
    end;
  parseGroupUrl := fun url base =>
    if prefix (base ++ "/") url
    then inr (Some (substring (S (String.length base)) (String.length url) url))
    else inr None
|}.

Definition registry (url : string) : option GitLabIntegration :=
  if prefix "https://gitlab.com" url then Some (mkIntegration saas)
  else if prefix "https://gitlab.example.com" url then Some (mkIntegration self_managed)
  else None.

(** The client of an application for gitlab.com and the one of an
    application for the self-managed instance: both are made by the
    constructor, from the registry. *)
Definition saas_client : GitLabClient := new_GitLabClient registry winston.
Definition self_managed_client : GitLabClient := new_GitLabClient registry winston.

Definition start : store := mkStore O [].

End Demo.

(* ================================================================= *)
(** ** Properties of the options object *)

Lemma get_set_same (o : ListOptions) (key : string) (v : value) :
  get (set o key v) key = v.
Proof.
  induction o as [|[k w] r IH]; simpl.
  - now rewrite String.eqb_refl.
  - destruct (String.eqb_spec k key) as [->|ne]; simpl.
    + now rewrite String.eqb_refl.
    + destruct (String.eqb_spec k key); [contradiction | exact IH].
Qed.

Lemma get_set_other (o : ListOptions) (key key' : string) (v : value) :
  key <> key' -> get (set o key v) key' = get o key'.
Proof.
  intros ne. induction o as [|[k w] r IH]; simpl.
  - destruct (String.eqb_spec key key'); [contradiction | reflexivity].
  - destruct (String.eqb_spec k key) as [->|nk]; simpl.
    + destruct (String.eqb_spec key key'); [contradiction | reflexivity].
    + now rewrite IH.
Qed.

(* ================================================================= *)
(** ** Properties of the pagination engine *)

Section Engine.

Context {W T : Type}.

Implicit Types (g : AsyncGenerator W T) (s : W) (tr : list (signal T)).

Lemma yielded_app tr1 tr2 : yielded (tr1 ++ tr2) = (yielded tr1 ++ yielded tr2)%list.
Proof.
  induction tr1 as [|sg tr1 IH]; [reflexivity|].
  destruct sg; simpl; now rewrite ?IH.
Qed.

Lemma fetches_app tr1 tr2 : fetches (tr1 ++ tr2) = (fetches tr1 ++ fetches tr2)%list.
Proof.
  induction tr1 as [|sg tr1 IH]; [reflexivity|].
  destruct sg; simpl; now rewrite ?IH.
Qed.

Lemma thrown_app tr1 tr2 : thrown (tr1 ++ tr2) = (thrown tr1 ++ thrown tr2)%list.
Proof.
  induction tr1 as [|sg tr1 IH]; [reflexivity|].
  destruct sg; simpl; now rewrite ?IH.
Qed.

Lemma yielded_items (xs : list T) : yielded (map Yielded xs) = xs.
Proof. induction xs as [|x xs IH]; simpl; [reflexivity | now rewrite IH]. Qed.

Lemma fetches_items (xs : list T) : fetches (map Yielded xs) = [].
Proof. induction xs as [|x xs IH]; simpl; [reflexivity | exact IH]. Qed.

Lemma thrown_items (xs : list T) : thrown (map Yielded xs) = [].
Proof. induction xs as [|x xs IH]; simpl; [reflexivity | exact IH]. Qed.

(** Runs compose. *)
Lemma run_trans n m g s tr g' s' tr' g'' s'' :
  run n g s = (tr, g', s') ->
  run m g' s' = (tr', g'', s'') ->
  run (n + m) g s = ((tr ++ tr')%list, g'', s'').
Proof.
  revert g s tr g' s'.
  induction n as [|n IH]; intros g s tr g' s' Hn Hm; simpl in *.
  - injection Hn as <- <- <-. exact Hm.
  - destruct (step g s) as [[tr1 g1] s1].
    destruct (run n g1 s1) as [[tr2 g2] s2] eqn:E2.
    injection Hn as <- <- <-.
    rewrite (IH _ _ _ _ _ E2 Hm). now rewrite app_assoc.
Qed.

(** A completed generator makes no further move. *)
Lemma run_done n g s : g_control g = Done -> run n g s = ([], g, s).
Proof.
  intros HD. induction n as [|n IH]; simpl; [reflexivity|].
  unfold step. rewrite HD. now rewrite IH.
Qed.

Lemma run_done_stable n m g s tr g' s' :
  run n g s = (tr, g', s') -> g_control g' = Done -> (n <= m)%nat ->
  run m g s = (tr, g', s').
Proof.
  intros Hn HD Hle.
  replace m with (n + (m - n))%nat by lia.
  rewrite (run_trans _ _ _ _ _ _ _ _ _ _ Hn (run_done (m - n) g' s' HD)).
  now rewrite app_nil_r.
Qed.

(** The [for ... of] loop yields the items of the page in order. *)
Lemma run_items (rq : ListOptions -> M W (PagedResponse T)) o (xs : list T) next s :
  run (List.length xs) (mkGenerator rq o (Items xs next)) s
  = (map Yielded xs, mkGenerator rq o (Items [] next), s).
Proof.
  induction xs as [|x xs IH]; simpl; [reflexivity|].
  unfold step; simpl. now rewrite IH.
Qed.

(** A walk that has completed has one trace. *)
Lemma completes_unique g s tr1 s1 tr2 s2 :
  completes g s tr1 s1 -> completes g s tr2 s2 -> tr1 = tr2 /\ s1 = s2.
Proof.
  intros (n1 & g1 & R1 & D1) (n2 & g2 & R2 & D2).
  pose proof (run_done_stable n1 (Nat.max n1 n2) _ _ _ _ _ R1 D1 (Nat.le_max_l _ _)) as E1.
  pose proof (run_done_stable n2 (Nat.max n1 n2) _ _ _ _ _ R2 D2 (Nat.le_max_r _ _)) as E2.
  rewrite E1 in E2. now injection E2 as -> _ ->.
Qed.

End Engine.

(** Rewriting the observations of a trace built from pieces. *)
Create Rewrite HintDb trace.
#[export] Hint Rewrite @yielded_app @fetches_app @thrown_app
  @yielded_items @fetches_items @thrown_items : trace.

(** *** Single moves *)

Section Moves.

Context {W T : Type}.

Variable rq : ListOptions -> M W (PagedResponse T).

Lemma run_one (g g' : AsyncGenerator W T) (s s' : W) tr :
  step g s = (tr, g', s') -> run 1 g s = (tr, g', s').
Proof. intros E. simpl. rewrite E. now rewrite app_nil_r. Qed.

Lemma step_fetch_ok o s res s1 :
  rq o s = (inr res, s1) ->
  step (mkGenerator rq o Loop) s
  = ([Fetched o (inr res)],
     mkGenerator rq (set o "page" (nextPage res)) (Items (items res) (nextPage res)), s1).
Proof. intros E. unfold step; simpl. now rewrite E. Qed.

Lemma step_fetch_fail o s e s1 :
  rq o s = (inl e, s1) ->
  step (mkGenerator rq o Loop) s
  = ([Fetched o (inl e); Thrown e], mkGenerator rq o Done, s1).
Proof. intros E. unfold step; simpl. now rewrite E. Qed.

Lemma step_while_true o next s :
  truthy next = true ->
  step (mkGenerator rq o (Items [] next)) s = ([], mkGenerator rq o Loop, s).
Proof. intros E. unfold step; simpl. now rewrite E. Qed.

Lemma step_while_false o next s :
  truthy next = false ->
  step (mkGenerator rq o (Items [] next)) s = ([Returned], mkGenerator rq o Done, s).
Proof. intros E. unfold step; simpl. now rewrite E. Qed.

(** One turn of the [do] body: the fetch, the assignment to
    [options.page] and the items of the page. *)
Lemma run_page o s res s1 :
  rq o s = (inr res, s1) ->
  run (S (List.length (items res))) (mkGenerator rq o Loop) s
  = (Fetched o (inr res) :: map Yielded (items res),
     mkGenerator rq (set o "page" (nextPage res)) (Items [] (nextPage res)), s1).
Proof.
  intros E.
  exact (run_trans 1 _ _ _ _ _ _ _ _ _
           (run_one _ _ _ _ _ (step_fetch_ok _ _ _ _ E)) (run_items _ _ _ _ _)).
Qed.

Lemma completes_after n (g g' : AsyncGenerator W T) s s' s'' tr tr' :
  run n g s = (tr, g', s') -> completes g' s' tr' s'' ->
  completes g s (tr ++ tr')%list s''.
Proof.
  intros R (m & g'' & R' & D).
  exists (n + m)%nat, g''. split; [|exact D].
  exact (run_trans _ _ _ _ _ _ _ _ _ _ R R').
Qed.

End Moves.

(** *** Walking pages that are served by number *)

Lemma skipn_nth {A : Type} (k : nat) (l : list A) (d : A) :
  (k < List.length l)%nat -> skipn k l = nth k l d :: skipn (S k) l.
Proof.
  revert l. induction k as [|k IH]; intros [|a l] H; simpl in *; try lia.
  - reflexivity.
  - apply IH. lia.
Qed.

Lemma page_number_set (o : ListOptions) (k : Z) :
  page_number (set o "page" (VNumber (Int k))) = Some k.
Proof. unfold page_number. now rewrite get_set_same. Qed.

Section Walk.

Context {W T : Type}.

Variable pages : list (list T).
Variable request : ListOptions -> M W (PagedResponse T).
Hypothesis request_serves : serves pages request.

(** From page [k + 1], with [j + 1] pages left: the walk yields the
    items of the remaining pages and fetches each of them once. *)
Lemma walk_from (j : nat) :
  forall (k : nat) (o : ListOptions) (s : W),
    (k + S j = List.length pages)%nat ->
    page_number o = Some (Z.of_nat (S k)) ->
    exists tr s',
      completes (mkGenerator request o Loop) s tr s'
      /\ yielded tr = List.concat (skipn k pages)
      /\ List.length (fetches tr) = S j
      /\ thrown tr = [].
Proof.
  induction j as [|j IH]; intros k o s Hlen Hpage.
  - destruct (request_serves o s k Hpage ltac:(lia))
      as (res & s1 & Hrq & Hitems & _ & Hlast).
    assert (Hfalsy : truthy (nextPage res) = false).
    { destruct (Hlast ltac:(lia)) as [-> | ->]; reflexivity. }
    exists ((Fetched o (inr res) :: map Yielded (items res)) ++ [Returned])%list, s1.
    split; [|split; [|split]].
    + eapply completes_after; [exact (run_page _ _ _ _ _ Hrq)|].
      exists 1%nat, (mkGenerator request (set o "page" (nextPage res)) Done).
      split; [|reflexivity].
      apply run_one. now apply step_while_false.
    + autorewrite with trace; simpl. autorewrite with trace.
      rewrite Hitems, app_nil_r, (skipn_nth k pages []) by lia.
      rewrite skipn_all2 by lia. simpl. now rewrite app_nil_r.
    + autorewrite with trace; simpl. now autorewrite with trace.
    + autorewrite with trace; simpl. now autorewrite with trace.
  - destruct (request_serves o s k Hpage ltac:(lia))
      as (res & s1 & Hrq & Hitems & Hnext & _).
    specialize (Hnext ltac:(lia)).
    assert (Htruthy : truthy (nextPage res) = true).
    { rewrite Hnext. cbn [truthy]. apply negb_true_iff, Z.eqb_neq. lia. }
    destruct (IH (S k) (set o "page" (nextPage res)) s1 ltac:(lia))
      as (tr & s2 & Hc & Hy & Hf & Ht).
    { rewrite Hnext. apply page_number_set. }
    exists ((Fetched o (inr res) :: map Yielded (items res)) ++ [] ++ tr)%list, s2.
    split; [|split; [|split]].
    + eapply completes_after; [exact (run_page _ _ _ _ _ Hrq)|].
      eapply completes_after; [|exact Hc].
      apply run_one. now apply step_while_true.
    + autorewrite with trace; simpl. autorewrite with trace.
      now rewrite Hitems, Hy, (skipn_nth k pages []) by lia.
    + autorewrite with trace; simpl. autorewrite with trace; simpl. now rewrite Hf.
    + autorewrite with trace; simpl. now autorewrite with trace.
Qed.

End Walk.

Lemma serve_pages_serves {T : Type} (pages : list (list T)) :
  serves pages (Demo.serve_pages pages).
Proof.
  intros o s k Hpage Hk. unfold Demo.serve_pages. rewrite Hpage.
  replace ((1 <=? Z.of_nat (S k)) && (Z.of_nat (S k) <=? Z.of_nat (List.length pages)))
    with true by (symmetry; apply andb_true_iff; split; apply Z.leb_le; lia).
  eexists _, _. split; [reflexivity|]. cbn [items nextPage].
  split; [|split].
  - f_equal. lia.
  - intros H. replace (Z.of_nat (S k) <? Z.of_nat (List.length pages)) with true
      by (symmetry; apply Z.ltb_lt; lia).
    do 2 f_equal. lia.
  - intros H. replace (Z.of_nat (S k) <? Z.of_nat (List.length pages)) with false
      by (symmetry; apply Z.ltb_ge; lia).
    now left.
Qed.

(** With a fetch function that serves the pages in the order of its
    calls, the walk yields all of them whatever the initial options. *)
Lemma paginated_walks_pages_served_in_order {W T : Type}
  (request : ListOptions -> M W (PagedResponse T)) (pages : list (list T)) :
  forall (k : nat) (options : ListOptions) (s : W),
    pages <> [] ->
    serves_in_order (S k) pages request s ->
    exists tr s',
      completes (paginated request options) s tr s'
      /\ yielded tr = List.concat pages
      /\ List.length (fetches tr) = List.length pages
      /\ thrown tr = [].
Proof.
  induction pages as [|p rest IH]; intros k options s Hne Hs; [contradiction|].
  destruct (Hs options) as (res & s1 & Hrq & Hitems & Hnext & Hrest).
  destruct rest as [|p2 rest].
  - assert (Hfalsy : truthy (nextPage res) = false) by (now destruct Hnext as [-> | ->]).
    exists ((Fetched options (inr res) :: map Yielded (items res)) ++ [Returned])%list, s1.
    split; [|split; [|split]].
    + eapply completes_after; [exact (run_page _ _ _ _ _ Hrq)|].
      exists 1%nat, (mkGenerator request (set options "page" (nextPage res)) Done).
      split; [|reflexivity].
      apply run_one. now apply step_while_false.
    + rewrite yielded_app; simpl. now rewrite yielded_items, Hitems, !app_nil_r.
    + rewrite fetches_app; simpl. now rewrite fetches_items.
    + rewrite thrown_app; simpl. now rewrite thrown_items.
  - assert (Htruthy : truthy (nextPage res) = true).
    { rewrite Hnext. cbn [truthy]. apply negb_true_iff, Z.eqb_neq. lia. }
    destruct (IH (S k) (set options "page" (nextPage res)) s1 ltac:(discriminate) Hrest)
      as (tr & s2 & Hc & Hy & Hf & Ht).
    exists ((Fetched options (inr res) :: map Yielded (items res)) ++ [] ++ tr)%list, s2.
    split; [|split; [|split]].
    + eapply completes_after; [exact (run_page _ _ _ _ _ Hrq)|].
      eapply completes_after; [|exact Hc].
      apply run_one. now apply step_while_true.
    + rewrite yielded_app; simpl. now rewrite yielded_items, Hitems, Hy.
    + rewrite fetches_app; simpl. rewrite fetches_items; simpl. now rewrite Hf.
    + rewrite thrown_app; simpl. now rewrite thrown_items.
Qed.

(** C1 (as amended). For every sequence of N >= 1 pages in which page k
    reports next-page k + 1 for k < N and page N reports no next page,
    the engine, given a fetch function that serves those pages by the
    page number requested and initial options whose page cursor is absent
    (or 1), completes its walk without throwing, yields exactly the
    concatenation of the N pages' item lists in order and invokes the
    fetch function exactly N times; for a single page it fetches once and
    yields that page's items. *)
Theorem paginated_walks_all_pages {W T : Type} (pages : list (list T))
  (request : ListOptions -> M W (PagedResponse T)) (options : ListOptions) (s : W) :
  serves pages request ->
  pages <> [] ->
  page_number options = Some 1 ->
  exists tr s',
    completes (paginated request options) s tr s'
    /\ yielded tr = List.concat pages
    /\ List.length (fetches tr) = List.length pages
    /\ thrown tr = [].
Proof.
  intros Hserves Hne Hpage.
  destruct pages as [|p ps]; [contradiction|].
  destruct (walk_from (p :: ps) request Hserves (List.length ps) O options s)
    as (tr & s' & Hc & Hy & Hf & Ht); [reflexivity | exact Hpage |].
  exists tr, s'. repeat split; assumption.
Qed.

(** The walk over three pages served by number, from options without a
    page cursor. *)
Lemma paginated_walks_all_pages_witness :
  serves Demo.three_pages (Demo.serve_pages Demo.three_pages)
  /\ Demo.three_pages <> []
  /\ page_number [("per_page", VNumber (Int 100))] = Some 1
  /\ exists tr s',
       completes (paginated (Demo.serve_pages Demo.three_pages)
                    [("per_page", VNumber (Int 100))]) O tr s'
       /\ yielded tr = List.concat Demo.three_pages
       /\ List.length (fetches tr) = List.length Demo.three_pages
       /\ thrown tr = [].
Proof.
  split; [apply serve_pages_serves|].
  split; [discriminate|].
  split; [reflexivity|].
  apply (paginated_walks_all_pages Demo.three_pages (Demo.serve_pages Demo.three_pages)
           [("per_page", VNumber (Int 100))] O).
  - apply serve_pages_serves.
  - discriminate.
  - reflexivity.
Defined.

(** Counterexample to C1 as stated (any initial options): with the page
    cursor preset to 2 the walk over three pages starts at page 2; it
    yields the items of pages 2 and 3 only and fetches twice. *)
Lemma paginated_preset_page_skips_pages :
  (exists tr,
      completes (paginated (Demo.serve_pages Demo.three_pages) [("page", VNumber (Int 2))])
        O tr 2%nat
      /\ yielded tr = ["c"; "d"; "e"]
      /\ List.length (fetches tr) = 2%nat)
  /\ ~ (forall (pages : list (list string))
          (request : ListOptions -> M nat (PagedResponse string))
          (options : ListOptions) (s : nat),
          serves pages request ->
          pages <> [] ->
          exists tr s',
            completes (paginated request options) s tr s'
            /\ yielded tr = List.concat pages
            /\ List.length (fetches tr) = List.length pages).
Proof.
  assert (Hrun : exists tr,
             completes (paginated (Demo.serve_pages Demo.three_pages)
                          [("page", VNumber (Int 2))]) O tr 2%nat
             /\ yielded tr = ["c"; "d"; "e"]
             /\ List.length (fetches tr) = 2%nat).
  { eexists. split; [|split].
    - exists 7%nat. eexists. split; [vm_compute; reflexivity | reflexivity].
    - reflexivity.
    - reflexivity. }
  split; [exact Hrun|].
  intros H.
  destruct (H Demo.three_pages (Demo.serve_pages Demo.three_pages)
              [("page", VNumber (Int 2))] O (serve_pages_serves _) ltac:(discriminate))
    as (tr & s' & Hc & Hy & _).
  destruct Hrun as (tr0 & Hc0 & Hy0 & _).
  destruct (completes_unique _ _ _ _ _ _ Hc Hc0) as [-> _].
  rewrite Hy0 in Hy. discriminate Hy.
Qed.

(** C2. For every fetch function that succeeds on page 1, reporting a
    next page, and fails on page 2: the engine yields all of page 1's
    items, then throws that same failure to the consumer, has made
    exactly 2 fetch attempts, and is completed, so that no further item
    is produced however long it is advanced. *)
Theorem paginated_failure_on_second_page {W T : Type}
  (request : ListOptions -> M W (PagedResponse T)) (options : ListOptions)
  (s s1 s2 : W) (res : PagedResponse T) (e : exn) :
  request options s = (inr res, s1) ->
  truthy (nextPage res) = true ->
  request (set options "page" (nextPage res)) s1 = (inl e, s2) ->
  let tr :=
    ((Fetched options (inr res) :: map Yielded (items res))
     ++ [Fetched (set options "page" (nextPage res)) (inl e); Thrown e])%list in
  completes (paginated request options) s tr s2
  /\ yielded tr = items res
  /\ List.length (fetches tr) = 2%nat
  /\ thrown tr = [e]
  /\ forall n, (List.length (items res) + 3 <= n)%nat ->
       exists g', run n (paginated request options) s = (tr, g', s2) /\ g_control g' = Done.
Proof.
  intros H1 Hnext H2 tr.
  pose (o2 := set options "page" (nextPage res)).
  assert (R : run (S (List.length (items res)) + (1 + 1)) (paginated request options) s
              = (tr, mkGenerator request o2 Done, s2)).
  { assert (R2 : run (1 + 1) (mkGenerator request o2 (Items [] (nextPage res))) s1
                 = (([] ++ [Fetched o2 (inl e); Thrown e])%list,
                    mkGenerator request o2 Done, s2)).
    { eapply run_trans; apply run_one.
      - now apply step_while_true.
      - now apply step_fetch_fail. }
    exact (run_trans _ _ _ _ _ _ _ _ _ _ (run_page _ _ _ _ _ H1) R2). }
  split; [|split; [|split; [|split]]].
  - eexists _, _. split; [exact R | reflexivity].
  - unfold tr. rewrite yielded_app; simpl. rewrite yielded_items. apply app_nil_r.
  - unfold tr. rewrite fetches_app; simpl. now rewrite fetches_items.
  - unfold tr. rewrite thrown_app; simpl. now rewrite thrown_items.
  - intros n Hn. exists (mkGenerator request o2 Done). split; [|reflexivity].
    eapply run_done_stable; [exact R | reflexivity | lia].
Qed.

(** A server whose second page cannot be fetched. *)
Lemma paginated_failure_on_second_page_witness :
  let res := mkPaged ["a"; "b"] (VNumber (Int 2)) in
  let e := Error "connection reset" in
  let tr :=
    [Fetched [] (inr res); Yielded "a"; Yielded "b";
     Fetched [("page", VNumber (Int 2))] (inl e); Thrown e] in
  Demo.second_page_fails [] O = (inr res, 1%nat)
  /\ truthy (nextPage res) = true
  /\ Demo.second_page_fails (set [] "page" (nextPage res)) 1%nat = (inl e, 2%nat)
  /\ completes (paginated Demo.second_page_fails []) O tr 2%nat
  /\ yielded tr = ["a"; "b"]
  /\ List.length (fetches tr) = 2%nat
  /\ thrown tr = [e]
  /\ forall n, (5 <= n)%nat ->
       exists g', run n (paginated Demo.second_page_fails []) O = (tr, g', 2%nat)
                  /\ g_control g' = Done.
Proof.
  intros res e tr.
  do 3 (split; [reflexivity|]).
  exact (paginated_failure_on_second_page Demo.second_page_fails [] O 1%nat 2%nat
           res e eq_refl eq_refl eq_refl).
Defined.

(** *** The invariant of a walk *)

Section Invariant.

Context {W T : Type}.

Implicit Types (fs : list (ListOptions * (exn + PagedResponse T))).

Lemma final_options_ok fs o o' (res : PagedResponse T) :
  final_options o (fs ++ [(o', inr res)]) = set (final_options o fs) "page" (nextPage res).
Proof.
  revert o. induction fs as [|[o1 [e|r1]] fs IH]; intros o; simpl; auto.
Qed.

Lemma final_options_failed fs o o' (e : exn) :
  final_options o (fs ++ [(o', @inl exn (PagedResponse T) e)]) = final_options o fs.
Proof.
  revert o. induction fs as [|[o1 [e1|r1]] fs IH]; intros o; simpl; auto.
Qed.

Lemma last_response_ok fs o (res : PagedResponse T) seen :
  last_response (fs ++ [(o, inr res)]) seen = Some res.
Proof.
  revert seen. induction fs as [|[o1 [e|r1]] fs IH]; intros seen; simpl; auto.
Qed.

Lemma final_options_page fs :
  forall o seen (res : PagedResponse T),
    (forall r, seen = Some r -> get o "page" = nextPage r) ->
    last_response fs seen = Some res ->
    get (final_options o fs) "page" = nextPage res.
Proof.
  induction fs as [|[o1 [e|r1]] fs IH]; intros o seen res Hseen Hlast; simpl in *.
  - now apply Hseen.
  - now apply (IH o seen).
  - apply (IH _ (Some r1)); [|exact Hlast].
    intros r [= <-]. apply get_set_same.
Qed.

(** A further fetch, made with the options the generator holds, extends
    the chain. *)
Lemma chained_snoc fs :
  forall o (r : exn + PagedResponse T),
    chained o fs -> Forall has_next fs ->
    chained o (fs ++ [(final_options o fs, r)]).
Proof.
  induction fs as [|[o1 r1] fs IH]; intros o r Hc Hn; simpl.
  - now split.
  - destruct Hc as [-> Hc]. split; [reflexivity|].
    inversion Hn as [|f l (res1 & Hr1 & Ht1) Hn']; subst. simpl in Hr1. subst r1.
    destruct fs as [|f2 fs].
    + simpl. now repeat split.
    + destruct Hc as [_ Hc]. change ((f2 :: fs) ++ [(final_options (set o "page" (nextPage res1)) (f2 :: fs), r)])%list
        with (f2 :: (fs ++ [(final_options (set o "page" (nextPage res1)) (f2 :: fs), r)]))%list.
      split; [exact Ht1|].
      exact (IH _ r Hc Hn').
Qed.

(** Every fetch but the last one succeeded and reported a next page. *)
Lemma chained_has_next fs :
  forall o (f : ListOptions * (exn + PagedResponse T)),
    chained o (fs ++ [f]) -> Forall has_next fs.
Proof.
  induction fs as [|[o1 r1] fs IH]; intros o f Hc; [constructor|].
  simpl in Hc. destruct Hc as [_ Hc].
  destruct (fs ++ [f])%list as [|f2 l] eqn:E.
  - now destruct fs.
  - destruct r1 as [e|res1]; [contradiction|]. destruct Hc as [Ht Hc].
    constructor.
    + now exists res1.
    + rewrite <- E in Hc. exact (IH _ _ Hc).
Qed.

(** The pages asked for are the page of the initial options followed by
    the next pages that the walk went on to. *)
Lemma pages_asked_chain fs :
  forall o, chained o fs -> fs <> [] ->
    pages_asked fs = page_of (get o "page") :: pages_followed fs.
Proof.
  induction fs as [|[o1 r1] fs IH]; intros o Hc Hne; [contradiction|].
  destruct Hc as [-> Hc]. destruct fs as [|f2 fs]; [reflexivity|].
  destruct r1 as [e|res1]; [contradiction|]. destruct Hc as [_ Hc].
  change (pages_asked ((o, inr res1) :: f2 :: fs))
    with (page_of (get o "page") :: pages_asked (f2 :: fs)).
  change (pages_followed ((o, inr res1) :: f2 :: fs))
    with (page_of (nextPage res1) :: pages_followed (f2 :: fs)).
  rewrite (IH _ Hc ltac:(discriminate)), get_set_same. reflexivity.
Qed.

Variable request : ListOptions -> M W (PagedResponse T).
Variable options : ListOptions.

Lemma walk_invariant_start : walk_invariant request options [] (paginated request options).
Proof. repeat split; auto. Qed.

Lemma walk_invariant_step tr (g g' : AsyncGenerator W T) (s s' : W) tr1 :
  walk_invariant request options tr g ->
  step g s = (tr1, g', s') ->
  walk_invariant request options (tr ++ tr1) g'.
Proof.
  intros (Hrq & Ho & Hc & Hk) Hstep.
  destruct g as [rq o k]; simpl in *; subst rq.
  unfold step in Hstep; simpl in Hstep.
  destruct k as [|[|x rest] next|].
  - destruct Hk as (Ht & Hr & Hn).
    destruct (request o s) as [[e|res] s1]; injection Hstep as <- <- <-;
      unfold walk_invariant; rewrite fetches_app, thrown_app, Ht; simpl; subst o.
    + repeat split.
      * now rewrite final_options_failed.
      * now apply chained_snoc.
      * right. exists (fetches tr), (final_options options (fetches tr)), e.
        repeat split. intros [H|[H|[H|[]]]]%in_app_or; try discriminate. contradiction.
    + repeat split.
      * now rewrite final_options_ok.
      * now apply chained_snoc.
      * intros [H|[H|[]]]%in_app_or; try discriminate. contradiction.
      * now exists (fetches tr), (final_options options (fetches tr)), res.
  - destruct Hk as (Ht & Hr & fs & o' & res & Hf & ->).
    destruct (truthy (nextPage res)) eqn:Hnext; injection Hstep as <- <- <-;
      unfold walk_invariant; rewrite fetches_app, thrown_app, Ht, ?app_nil_r; simpl;
      rewrite ?app_nil_r.
    + repeat split; auto. rewrite Hf. apply Forall_app. split.
      * rewrite Hf in Hc. exact (chained_has_next _ _ _ Hc).
      * constructor; [|constructor]. now exists res.
    + repeat split; auto. left. exists fs, o', res. repeat split; auto.
      apply in_or_app. right. now left.
  - destruct Hk as (Ht & Hr & Hf).
    injection Hstep as <- <- <-.
    unfold walk_invariant; rewrite fetches_app, thrown_app, Ht; simpl; rewrite ?app_nil_r.
    repeat split; auto.
    intros [H|[H|[]]]%in_app_or; [contradiction | discriminate].
  - injection Hstep as <- <- <-. rewrite app_nil_r.
    now repeat split.
Qed.

Lemma walk_invariant_run n :
  forall tr0 (g g' : AsyncGenerator W T) (s s' : W) tr,
    walk_invariant request options tr0 g ->
    run n g s = (tr, g', s') ->
    walk_invariant request options (tr0 ++ tr) g'.
Proof.
  induction n as [|n IH]; intros tr0 g g' s s' tr Hinv Hrun; simpl in Hrun.
  - injection Hrun as <- <- <-. now rewrite app_nil_r.
  - destruct (step g s) as [[tr1 g1] s1] eqn:Hstep.
    destruct (run n g1 s1) as [[tr2 g2] s2] eqn:Hrest.
    injection Hrun as <- <- <-.
    rewrite app_assoc.
    exact (IH _ _ _ _ _ _ (walk_invariant_step _ _ _ _ _ _ Hinv Hstep) Hrest).
Qed.

Lemma walk_invariant_holds n (s s' : W) tr (g' : AsyncGenerator W T) :
  run n (paginated request options) s = (tr, g', s') ->
  walk_invariant request options tr g'.
Proof. exact (walk_invariant_run n [] _ _ _ _ _ walk_invariant_start). Qed.

(** Every fetch recorded in a trace is a call of the request function. *)
Lemma fetches_are_requests n :
  forall (g g' : AsyncGenerator W T) (s s' : W) tr,
    g_request g = request ->
    run n g s = (tr, g', s') ->
    g_request g' = request
    /\ Forall (fun f => exists s0 s1, request (fst f) s0 = (snd f, s1)) (fetches tr).
Proof.
  induction n as [|n IH]; intros g g' s s' tr Hrq Hrun; simpl in Hrun.
  - injection Hrun as <- <- <-. now split.
  - destruct (step g s) as [[tr1 g1] s1] eqn:Hstep.
    destruct (run n g1 s1) as [[tr2 g2] s2] eqn:Hrest.
    injection Hrun as <- <- <-.
    assert (H1 : g_request g1 = request
                 /\ Forall (fun f => exists s0 s1, request (fst f) s0 = (snd f, s1))
                      (fetches tr1)).
    { unfold step in Hstep. destruct g as [rq o k]; simpl in *. subst rq.
      destruct k as [|[|x rest] next|].
      - destruct (request o s) as [[e|res] s1'] eqn:E; injection Hstep as <- <- <-;
          (split; [reflexivity|]); repeat constructor; simpl; eauto.
      - destruct (truthy next); injection Hstep as <- <- <-; now split.
      - injection Hstep as <- <- <-. now split.
      - injection Hstep as <- <- <-. now split. }
    destruct H1 as [Hrq1 Hf1].
    destruct (IH _ _ _ _ _ Hrq1 Hrest) as [Hrq2 Hf2].
    split; [exact Hrq2|]. rewrite fetches_app. apply Forall_app. now split.
Qed.

Lemma calls_of_walk n (s s' : W) tr (g' : AsyncGenerator W T) :
  run n (paginated request options) s = (tr, g', s') ->
  Forall (fun f => exists s0 s1, request (fst f) s0 = (snd f, s1)) (fetches tr).
Proof.
  intros E.
  exact (proj2 (fetches_are_requests n (paginated request options) g' s s' tr eq_refl E)).
Qed.

End Invariant.

(** C8 (as amended). At every point of a pagination walk: [options.page]
    equals the next-page value of the most recent response; each fetch
    after the first follows a response whose next-page value is truthy and
    asks for exactly that page, all other options unchanged; the walk
    returns only after a response whose next-page value is falsy (absent,
    [null], [0] or [NaN]), and after such a response it does return,
    without a further fetch; the pages asked for are the page of the
    initial options (the first page when it has none) followed by the next
    pages that the walk went on to, so no page is asked for twice unless a
    response names, as the next page, a page that the walk has already
    asked for. *)
Theorem pagination_walk_invariant {W T : Type}
  (request : ListOptions -> M W (PagedResponse T)) (options : ListOptions)
  (s s' : W) (n : nat) (tr : list (signal T)) (g' : AsyncGenerator W T) :
  run n (paginated request options) s = (tr, g', s') ->
  (forall res, last_response (fetches tr) None = Some res ->
               get (g_options g') "page" = nextPage res)
  /\ chained options (fetches tr)
  /\ (In Returned tr ->
      exists res, last_response (fetches tr) None = Some res
                  /\ truthy (nextPage res) = false)
  /\ (forall fs o res,
         fetches tr = (fs ++ [(o, inr res)])%list ->
         truthy (nextPage res) = false ->
         exists tr' s'',
           completes (paginated request options) s tr' s''
           /\ fetches tr' = fetches tr /\ In Returned tr')
  /\ (fetches tr <> [] ->
      pages_asked (fetches tr)
      = page_of (get options "page") :: pages_followed (fetches tr))
  /\ (NoDup (page_of (get options "page") :: pages_followed (fetches tr)) ->
      NoDup (pages_asked (fetches tr))).
Proof.
  intros Hrun.
  pose proof (walk_invariant_holds request options n s s' tr g' Hrun) as (Hrq & Ho & Hc & Hk).
  split; [|split; [|split; [|split; [|split]]]].
  - intros res Hlast. rewrite Ho.
    apply (final_options_page _ _ None); [discriminate | exact Hlast].
  - exact Hc.
  - intros Hret. destruct (g_control g') as [|rest next|].
    + now destruct Hk as (_ & Hn & _).
    + now destruct Hk as (_ & Hn & _).
    + destruct Hk as [(fs & o & res & Hf & Hfalsy & _)|(fs & o & e & _ & _ & Hn)];
        [|contradiction].
      exists res. split; [|exact Hfalsy]. rewrite Hf. apply last_response_ok.
  - intros fs o res Hf Hfalsy.
    destruct g' as [rq o' k]; simpl in *; subst rq.
    destruct k as [|rest next|].
    + destruct Hk as (_ & _ & Hn). rewrite Hf in Hn.
      apply Forall_app in Hn as [_ Hn]. inversion Hn as [|f l (res' & E & Ht) _]; subst.
      simpl in E. injection E as <-. congruence.
    + destruct Hk as (_ & Hr & fs' & o'' & res' & Hf' & ->).
      rewrite Hf in Hf'. apply app_inj_tail in Hf' as [_ [= _ <-]].
      exists (tr ++ (map Yielded rest ++ [Returned]))%list, s'. split; [|split].
      * eapply completes_after; [exact Hrun|].
        exists (List.length rest + 1)%nat, (mkGenerator request o' Done). split; [|reflexivity].
        eapply run_trans; [apply run_items|].
        apply run_one. now apply step_while_false.
      * rewrite !fetches_app, fetches_items. simpl. now rewrite app_nil_r.
      * apply in_or_app. right. apply in_or_app. right. now left.
    + destruct Hk as [(_ & _ & _ & _ & _ & _ & Hret)|(fs' & o'' & e & Hf' & _)].
      * exists tr, s'. split; [|split]; auto.
        now exists n, (mkGenerator request o' Done).
      * rewrite Hf in Hf'. apply app_inj_tail in Hf' as [_ [=]].
  - intros Hne. exact (pages_asked_chain _ _ Hc Hne).
  - intros Hnd. destruct (fetches tr) as [|f fs] eqn:E; [constructor|].
    now rewrite (pages_asked_chain (f :: fs) options Hc ltac:(discriminate)).
Qed.

(** Six moves into the walk over three pages. *)
Lemma pagination_walk_invariant_witness :
  let request := Demo.serve_pages Demo.three_pages in
  let options := [("per_page", VNumber (Int 100))] in
  exists tr g',
    run 6 (paginated request options) O = (tr, g', 2%nat)
    /\ (forall res, last_response (fetches tr) None = Some res ->
                    get (g_options g') "page" = nextPage res)
    /\ chained options (fetches tr)
    /\ (In Returned tr ->
        exists res, last_response (fetches tr) None = Some res
                    /\ truthy (nextPage res) = false)
    /\ (forall fs o res,
           fetches tr = (fs ++ [(o, inr res)])%list ->
           truthy (nextPage res) = false ->
           exists tr' s'',
             completes (paginated request options) O tr' s''
             /\ fetches tr' = fetches tr /\ In Returned tr')
    /\ (fetches tr <> [] ->
        pages_asked (fetches tr)
        = page_of (get options "page") :: pages_followed (fetches tr))
    /\ (NoDup (page_of (get options "page") :: pages_followed (fetches tr)) ->
        NoDup (pages_asked (fetches tr))).
Proof.
  intros request options.
  destruct (run 6 (paginated request options) O) as [[tr g'] s'] eqn:E.
  assert (Es : s' = 2%nat) by (now vm_compute in E; injection E as _ _ <-).
  subst s'. exists tr, g'. split; [reflexivity|].
  exact (pagination_walk_invariant request options O 2%nat 6 tr g' E).
Defined.

(** Counterexample to C8 as stated. A walk asks for page 2 twice when the
    responses keep naming page 2 as the next page; and a walk returns
    after a response that does report a next page, the page 0. *)
Lemma walk_repeats_page_and_stops_at_zero :
  ~ (forall (request : ListOptions -> M nat (PagedResponse string)) (options : ListOptions)
       (s s' : nat) (n : nat) tr g',
        run n (paginated request options) s = (tr, g', s') ->
        NoDup (pages_asked (fetches tr)))
  /\ ~ (forall (request : ListOptions -> M nat (PagedResponse string)) (options : ListOptions)
          (s s' : nat) (n : nat) tr g',
           run n (paginated request options) s = (tr, g', s') ->
           In Returned tr ->
           exists res, last_response (fetches tr) None = Some res
                       /\ (nextPage res = VUndefined \/ nextPage res = VNull)).
Proof.
  split; intros H.
  - destruct (run 7 (paginated Demo.stuck_on_page_2 []) O) as [[tr g'] s'] eqn:E.
    specialize (H _ _ _ _ _ _ _ E).
    vm_compute in E. injection E as <- _ _.
    vm_compute in H.
    inversion H as [|x l _ H2]; subst. inversion H2 as [|y l' Hin _]; subst.
    apply Hin. now left.
  - destruct (run 3 (paginated Demo.next_is_zero []) O) as [[tr g'] s'] eqn:E.
    specialize (H _ _ _ _ _ _ _ E).
    vm_compute in E. injection E as <- _ _.
    destruct H as (res & Hlast & Habs).
    + right. right. now left.
    + vm_compute in Hlast. injection Hlast as <-.
      destruct Habs as [Habs|Habs]; discriminate Habs.
Qed.

(* ================================================================= *)
(** ** Properties of the query-string construction *)

Lemma toString_truthy (v : value) :
  truthy v = true -> exists s, toString v = inr s.
Proof.
  destruct v as [| |[|]|n|s]; simpl; try discriminate; intros _; eauto.
Qed.

Lemma string_app_assoc (a b c : string) : (a ++ b) ++ c = a ++ (b ++ c).
Proof. induction a as [|x a IH]; simpl; [reflexivity | now rewrite IH]. Qed.

Lemma string_app_empty_r (a : string) : a ++ EmptyString = a.
Proof. induction a as [|x a IH]; simpl; [reflexivity | now rewrite IH]. Qed.

Lemma append_not_empty (a b : string) (c : ascii) : a ++ String c b <> EmptyString.
Proof. destruct a; discriminate. Qed.

Lemma filter_none {A : Type} (f : A -> bool) (l : list A) :
  (forall x, In x l -> f x = false) -> filter f l = [].
Proof.
  induction l as [|a l IH]; intros H; simpl; [reflexivity|].
  rewrite (H a (or_introl eq_refl)). apply IH. intros x Hx. apply H. now right.
Qed.

Lemma search_toString_not_empty (p : string * string) (ps : URLSearchParams) :
  search_toString (p :: ps) <> EmptyString.
Proof.
  unfold search_toString. simpl.
  assert (H : forall rest, urlencoded_pair p ++ rest <> EmptyString).
  { intros rest. unfold urlencoded_pair. rewrite string_app_assoc.
    apply append_not_empty. }
  destruct (map urlencoded_pair ps).
  - rewrite <- (string_app_empty_r (urlencoded_pair p)). apply H.
  - apply H.
Qed.

(** The loop appends, in the order of the keys, one pair for each key
    whose value is truthy, and never throws. *)
Lemma for_in_spec (o : ListOptions) (ks : list string) :
  forall search0,
  exists added,
    for_in o ks search0 = inr (search0 ++ added)%list
    /\ map fst added = filter (fun key => truthy (get o key)) ks
    /\ Forall (fun p => toString (get o (fst p)) = inr (snd p)) added.
Proof.
  induction ks as [|key ks IH]; intros search0; simpl.
  - exists []. now rewrite app_nil_r.
  - destruct (truthy (get o key)) eqn:Ht.
    + destruct (toString_truthy _ Ht) as (str & Hs). rewrite Hs.
      destruct (IH (append search0 key str)) as (added & E & Hk & Hv).
      exists ((key, str) :: added). split; [|split].
      * rewrite E. unfold append. now rewrite <- app_assoc.
      * simpl. now rewrite Hk.
      * constructor; assumption.
    + exact (IH search0).
Qed.

(** C3. For every ListOptions value, [listOptionsToQueryString] never
    throws and serializes exactly the keys whose values are truthy, in the
    order of the object, each with its value as a string (so keys that are
    absent, [0], [false] or the empty string are omitted); the result is
    the empty string when no such key remains and begins with [?]
    otherwise. In particular [{per_page: 100, page: undefined, blocked:
    false}] gives [?per_page=100], and options whose values are all absent
    give the empty string. *)
Theorem listOptionsToQueryString_truthy_keys :
  (forall options : option ListOptions,
      let o := match options with Some o => o | None => [] end in
      exists search : URLSearchParams,
        map fst search = filter (fun key => truthy (get o key)) (keys o)
        /\ Forall (fun p => toString (get o (fst p)) = inr (snd p)) search
        /\ listOptionsToQueryString options
           = inr match search with
                 | [] => EmptyString
                 | _ :: _ => String "?" (search_toString search)
                 end)
  /\ (truthy VUndefined = false /\ truthy (VNumber (Int 0)) = false
      /\ truthy (VBoolean false) = false /\ truthy (VString EmptyString) = false)
  /\ listOptionsToQueryString
       (Some [("per_page", VNumber (Int 100)); ("page", VUndefined);
              ("blocked", VBoolean false)])
     = inr "?per_page=100"
  /\ (forall o : ListOptions,
         Forall (fun p => snd p = VUndefined) o ->
         listOptionsToQueryString (Some o) = inr EmptyString)
  /\ listOptionsToQueryString None = inr EmptyString.
Proof.
  assert (General : forall options : option ListOptions,
             let o := match options with Some o => o | None => [] end in
             exists search : URLSearchParams,
               map fst search = filter (fun key => truthy (get o key)) (keys o)
               /\ Forall (fun p => toString (get o (fst p)) = inr (snd p)) search
               /\ listOptionsToQueryString options
                  = inr match search with
                        | [] => EmptyString
                        | _ :: _ => String "?" (search_toString search)
                        end).
  { intros options o.
    destruct (for_in_spec o (keys o) []) as (search & E & Hk & Hv).
    exists search. split; [exact Hk|]. split; [exact Hv|].
    unfold listOptionsToQueryString.
    replace (for_in match options with Some o0 => o0 | None => [] end
               match options with Some o0 => keys o0 | None => [] end [])
      with (for_in o (keys o) []) by (now destruct options).
    rewrite E. simpl. destruct search as [|p ps]; [reflexivity|].
    destruct (String.eqb_spec (search_toString (p :: ps)) EmptyString) as [E0|_];
      [|reflexivity].
    now apply search_toString_not_empty in E0. }
  split; [exact General|].
  split; [now repeat split|].
  split; [reflexivity|].
  split; [|reflexivity].
  intros o Ho.
  destruct (General (Some o)) as (search & Hk & _ & E). simpl in Hk, E.
  assert (Hnone : filter (fun key => truthy (get o key)) (keys o) = []).
  { apply filter_none. intros key Hin. clear - Ho Hin.
    induction o as [|[k v] o IH]; [contradiction|].
    inversion Ho as [|? ? Hv Ho']; subst. simpl in Hv. subst v. simpl.
    destruct (k =? key)%string; [reflexivity|].
    destruct Hin as [Hin|Hin]; [|now apply IH].
    simpl in Hin. subst key.
    clear - Ho'. induction o as [|[k' v'] o IH]; [reflexivity|].
    inversion Ho' as [|? ? Hv Ho'']; subst. simpl in Hv. subst v'. simpl.
    destruct (k' =? k)%string; [reflexivity | now apply IH]. }
  rewrite Hnone in Hk. destruct search; [exact E | discriminate Hk].
Qed.

(* ================================================================= *)
(** ** Properties of the request layer *)

Section RequestLayer.

Context {I : Imports}.

Variable this : GitLabClient.

(** On an object that the constructor made, [request] stops at its first
    statement: [this.config] is [undefined], so reading [apiBaseUrl]
    throws before the URL is parsed, the debug line written or the
    transport called. *)
Lemma request_undefined_config (endpoint : string) (init : option RequestInit) (s : store) :
  this_config this = None ->
  request this endpoint init s = (inl (undefined_property "apiBaseUrl"), s).
Proof. intros H. unfold request. now rewrite H. Qed.

Lemma query_string_total (options : option ListOptions) :
  exists q, listOptionsToQueryString options = inr q.
Proof.
  unfold listOptionsToQueryString.
  destruct (for_in_spec (match options with Some o => o | None => [] end)
              (match options with Some o => keys o | None => [] end) [])
    as (added & E & _). rewrite E. eauto.
Qed.

(** [pagedRequest] builds the query string and hands [request] the
    endpoint followed by it. *)
Lemma pagedRequest_path (endpoint : string) (options : option ListOptions) (q : string) :
  listOptionsToQueryString options = inr q ->
  pagedRequest this endpoint options = page_from this (endpoint ++ q).
Proof. intros HQ. unfold pagedRequest, page_from, bind, lift. now rewrite HQ. Qed.

(** So [pagedRequest] fails as [request] does, whatever the options. *)
Lemma pagedRequest_undefined_config (endpoint : string) (options : option ListOptions)
  (s : store) :
  this_config this = None ->
  pagedRequest this endpoint options s = (inl (undefined_property "apiBaseUrl"), s).
Proof.
  intros H. destruct (query_string_total options) as (q & HQ).
  rewrite (pagedRequest_path endpoint options q HQ).
  unfold page_from, bind. now rewrite (request_undefined_config _ None s H).
Qed.

End RequestLayer.

(* ================================================================= *)
(** ** Properties of the listing operations *)

Lemma set_set (o : ListOptions) (key : string) (v v' : value) :
  set (set o key v) key v' = set o key v'.
Proof.
  induction o as [|[k w] r IH]; simpl.
  - now rewrite String.eqb_refl.
  - destruct (String.eqb_spec k key) as [->|ne]; simpl.
    + now rewrite String.eqb_refl.
    + destruct (String.eqb_spec k key); [contradiction | now rewrite IH].
Qed.

(** Every fetch of a walk is made with the initial options, up to the
    value of [page]. *)
Lemma chained_options {T : Type} (fs : list (ListOptions * (exn + PagedResponse T))) :
  forall o, chained o fs ->
    Forall (fun f => fst f = o \/ exists v, fst f = set o "page" v) fs.
Proof.
  induction fs as [|[o1 r1] fs IH]; intros o Hc; [constructor|].
  destruct Hc as [-> Hc]. constructor; [now left|].
  destruct fs as [|f2 fs]; [constructor|].
  destruct r1 as [e|res1]; [contradiction|]. destruct Hc as [_ Hc].
  apply IH in Hc. revert Hc. apply Forall_impl.
  intros f [E|(v & E)]; right.
  - now exists (nextPage res1).
  - exists v. now rewrite set_set in E.
Qed.

(** The query string of the options of the instance-wide user listing,
    whatever the page. *)
Lemma users_query (o : ListOptions) :
  (o = [("active", VBoolean true); ("per_page", VNumber (Int 100))]
   \/ exists v, o = set [("active", VBoolean true); ("per_page", VNumber (Int 100))] "page" v) ->
  get o "active" = VBoolean true
  /\ get o "per_page" = VNumber (Int 100)
  /\ exists rest,
       (rest = EmptyString \/ exists str, rest = "&page=" ++ str)
       /\ listOptionsToQueryString (Some o) = inr ("?active=true&per_page=100" ++ rest).
Proof.
  intros [->|(v & ->)].
  - repeat split. exists EmptyString. split; [now left | reflexivity].
  - repeat split.
    unfold listOptionsToQueryString. simpl.
    destruct (truthy v) eqn:Hv.
    + destruct (toString_truthy v Hv) as (str & ->).
      exists ("&page=" ++ urlencoded str). split; [right; now exists (urlencoded str) | reflexivity].
    + exists EmptyString. split; [now left | reflexivity].
Qed.

Section Listings.

Context {I : Imports}.

Variable this : GitLabClient.

(** [listUsers] once the integration and the group path are known. *)
Lemma listUsers_resolved (targetUrl : string) (options : option UsersOptions)
  (s : store) (integration : GitLabIntegration) (group : option string) :
  byUrl this targetUrl = Some integration ->
  parseGroupUrl targetUrl (baseUrl (config integration)) = inr group ->
  listUsers this targetUrl options s
  = (if truthy (group_of group) then
       inr (paginated
              (fun opts =>
                 pagedRequest this
                   ("/groups/"
                    ++ encodeURIComponent
                         (match group with Some g => g | None => EmptyString end)
                    ++ "/members"
                    ++ (if truthy (nullish (opt_inherited options) (VBoolean true))
                        then "/all" else EmptyString))
                   (Some opts))
              ([("per_page", VNumber (Int 100))]
               ++ spread_if (opt_blocked options) "blocked" (VBoolean true))%list)
     else if negb (host (config integration) =? "gitlab.com")%string then
       inl (Error "Getting all GitLab instance users is only supported for self-managed hosts.")
     else
       inr (paginated (fun opts => pagedRequest this "/users" (Some opts))
              [("active", VBoolean true); ("per_page", VNumber (Int 100))]),
     s).
Proof.
  intros Hby Hparse.
  unfold listUsers, getIntegration, bind, lift, ret, throw. rewrite Hby, Hparse.
  destruct (truthy (group_of group)); [reflexivity|].
  now destruct (negb (host (config integration) =? "gitlab.com")%string).
Qed.

(** C5. For every target URL that resolves to an integration and has no
    group component, [listUsers] succeeds, returning the instance-wide
    user sequence, when the resolved host is [gitlab.com], and fails with
    the unsupported-operation error when the resolved host is any other
    host; in both cases the state of the world is untouched: nothing has
    been requested. *)
Theorem listUsers_instance_wide (targetUrl : string) (options : option UsersOptions)
  (s : store) (integration : GitLabIntegration) (group : option string) :
  byUrl this targetUrl = Some integration ->
  parseGroupUrl targetUrl (baseUrl (config integration)) = inr group ->
  truthy (group_of group) = false ->
  (host (config integration) = "gitlab.com" ->
   listUsers this targetUrl options s
   = (inr (paginated (fun opts => pagedRequest this "/users" (Some opts))
             [("active", VBoolean true); ("per_page", VNumber (Int 100))]), s))
  /\ (host (config integration) <> "gitlab.com" ->
      listUsers this targetUrl options s
      = (inl (Error "Getting all GitLab instance users is only supported for self-managed hosts."),
         s)).
Proof.
  intros Hby Hparse Hgroup.
  rewrite (listUsers_resolved _ _ _ _ _ Hby Hparse), Hgroup.
  split; intros Hhost.
  - rewrite Hhost. reflexivity.
  - destruct (String.eqb_spec (host (config integration)) "gitlab.com");
      [contradiction | reflexivity].
Qed.

(** C9. For every instance-wide (non-group) [listUsers] call that
    succeeds, the walk returned is the one over [/users] whose initial
    query options are [active: true] and [per_page: 100]. Every page
    request of the walk is a call of [pagedRequest] for [/users] with
    [active] still [true] and [per_page] still 100, and that call asks
    [request] for [/users?active=true&per_page=100], followed by the page
    parameter or by nothing. *)
Theorem listUsers_instance_wide_active (targetUrl : string) (options : option UsersOptions)
  (s : store) (integration : GitLabIntegration) (group : option string) :
  byUrl this targetUrl = Some integration ->
  parseGroupUrl targetUrl (baseUrl (config integration)) = inr group ->
  truthy (group_of group) = false ->
  host (config integration) = "gitlab.com" ->
  let users :=
    paginated (fun opts => pagedRequest this "/users" (Some opts))
      [("active", VBoolean true); ("per_page", VNumber (Int 100))] in
  listUsers this targetUrl options s = (inr users, s)
  /\ forall n s0,
       let r := run n users s0 in
       g_request (generator_of r) = (fun opts => pagedRequest this "/users" (Some opts))
       /\ Forall (fun f =>
                    get (fst f) "active" = VBoolean true
                    /\ get (fst f) "per_page" = VNumber (Int 100)
                    /\ (exists s1 s2,
                           pagedRequest this "/users" (Some (fst f)) s1 = (snd f, s2))
                    /\ exists rest,
                         (rest = EmptyString \/ exists str, rest = "&page=" ++ str)
                         /\ listOptionsToQueryString (Some (fst f))
                            = inr ("?active=true&per_page=100" ++ rest)
                         /\ pagedRequest this "/users" (Some (fst f))
                            = page_from this ("/users" ++ "?active=true&per_page=100" ++ rest))
            (fetches (trace_of r)).
Proof.
  intros Hby Hparse Hgroup Hhost users.
  split.
  - rewrite (listUsers_resolved _ _ _ _ _ Hby Hparse), Hgroup, Hhost. reflexivity.
  - intros n s0 r. destruct r as [[tr g'] s'] eqn:E. subst r.
    unfold generator_of, trace_of; simpl.
    destruct (walk_invariant_holds _ _ n s0 s' tr g' E) as (Hrq & _ & Hc & _).
    split; [exact Hrq|].
    pose proof (calls_of_walk _ _ n s0 s' tr g' E) as Hcalls.
    apply chained_options in Hc.
    apply Forall_forall. intros f Hin.
    rewrite Forall_forall in Hc, Hcalls.
    destruct (users_query (fst f) (Hc f Hin)) as (Ha & Hp & rest & Hrest & HQ).
    split; [exact Ha|]. split; [exact Hp|]. split; [exact (Hcalls f Hin)|].
    exists rest. split; [exact Hrest|]. split; [exact HQ|].
    exact (pagedRequest_path this "/users" (Some (fst f)) _ HQ).
Qed.

(** C10. For every group-scoped [listUsers] call, the members endpoint of
    the group is used with the suffix [/all] (direct and inherited
    members) when the [inherited] option is not supplied, to which [true]
    is the default, or is [true]; the plain members endpoint is used only
    when [inherited] is explicitly [false]. *)
Theorem listUsers_group_members_endpoint (targetUrl : string)
  (options : option UsersOptions) (s : store) (integration : GitLabIntegration)
  (group : string) :
  byUrl this targetUrl = Some integration ->
  parseGroupUrl targetUrl (baseUrl (config integration)) = inr (Some group) ->
  group <> EmptyString ->
  let suffix :=
    match options with
    | Some {| inherited := Some false |} => EmptyString
    | _ => "/all"
    end in
  nullish (opt_inherited options) (VBoolean true)
  = VBoolean (negb (suffix =? EmptyString)%string)
  /\ listUsers this targetUrl options s
     = (inr (paginated
               (fun opts =>
                  pagedRequest this
                    ("/groups/" ++ encodeURIComponent group ++ "/members" ++ suffix)
                    (Some opts))
               ([("per_page", VNumber (Int 100))]
                ++ spread_if (opt_blocked options) "blocked" (VBoolean true))%list), s).
Proof.
  intros Hby Hparse Hne suffix.
  assert (Hin : nullish (opt_inherited options) (VBoolean true)
                = VBoolean (negb (suffix =? EmptyString)%string)).
  { subst suffix. now destruct options as [[[[|]|] b]|]. }
  split; [exact Hin|].
  assert (Hg : truthy (group_of (Some group)) = true).
  { simpl. now destruct (String.eqb_spec group EmptyString). }
  rewrite (listUsers_resolved _ _ _ _ _ Hby Hparse), Hg, Hin.
  subst suffix. now destruct options as [[[[|]|] b]|].
Qed.

(** Where [listProjects] sends its page requests: for a group URL, the
    endpoint handed to [pagedRequest] is the API base URL of the
    integration followed by the group-projects path, with
    [include_subgroups] among the options; otherwise it is [/projects]. *)
Lemma listProjects_endpoints (targetUrl : string) (options : option ProjectsOptions)
  (s : store) (integration : GitLabIntegration) (group : option string) :
  byUrl this targetUrl = Some integration ->
  parseGroupUrl targetUrl (baseUrl (config integration)) = inr group ->
  listProjects this targetUrl options s
  = (inr (if truthy (group_of group) then
            paginated
              (fun o =>
                 pagedRequest this
                   (apiBaseUrl (config integration) ++ "/groups/"
                    ++ encodeURIComponent
                         (match group with Some g => g | None => EmptyString end)
                    ++ "/projects") (Some o))
              ([("per_page", VNumber (Int 100)); ("include_subgroups", VBoolean true)]
               ++ spread_if (opt_last_activity_after options) "last_activity_after"
                    (opt_last_activity_after options))%list
          else
            paginated (fun o => pagedRequest this "/projects" (Some o))
              ([("per_page", VNumber (Int 100))]
               ++ spread_if (opt_last_activity_after options) "last_activity_after"
                    (opt_last_activity_after options))%list), s).
Proof.
  intros Hby Hparse.
  unfold listProjects, getIntegration, bind, lift, ret. rewrite Hby, Hparse.
  now destruct (truthy (group_of group)).
Qed.

End Listings.

(* ================================================================= *)
(** ** The properties in the concrete world *)

Section Concrete.

#[local] Existing Instance Demo.imports.

(** C7 (the code as built). A request that the remote would answer
    with 404 and one that it would answer with 200: in both cases
    [request] throws the TypeError of reading [this.config.apiBaseUrl],
    before the URL is parsed, the debug line written or the transport
    called. No response is returned, and the error is not the one that
    carries the URL and the status. *)
Theorem request_throws_before_fetch :
  let not_found := Demo.route Demo.routes "https://gitlab.com/api/v4/nothing" in
  let found := Demo.route Demo.routes "https://gitlab.com/api/v4/projects?per_page=100" in
  let e := TypeError "Cannot read properties of undefined (reading 'apiBaseUrl')" in
  (status not_found = 404 /\ ok not_found = false)
  /\ (status found = 200 /\ ok found = true)
  /\ request Demo.saas_client "/nothing" None Demo.start = (inl e, Demo.start)
  /\ request Demo.saas_client "/projects?per_page=100" None Demo.start = (inl e, Demo.start)
  /\ effects Demo.start = []
  /\ e <> Error (unexpected_response "https://gitlab.com/api/v4/nothing" not_found).
Proof.
  intros not_found found e.
  split; [now split|]. split; [now split|].
  split; [now apply request_undefined_config|].
  split; [now apply request_undefined_config|].
  split; [reflexivity | discriminate].
Qed.

(** C4 (the code as built). The first page of the users of gitlab.com,
    which the remote would answer with status 200, two items and the
    next-page header [2]: [pagedRequest] builds the query string and then
    fails with the TypeError of [request]; no page is returned and
    nothing is sent. *)
Theorem pagedRequest_throws_before_fetch :
  let options := [("active", VBoolean true); ("per_page", VNumber (Int 100))] in
  let response :=
    Demo.route Demo.routes "https://gitlab.com/api/v4/users?active=true&per_page=100" in
  let e := TypeError "Cannot read properties of undefined (reading 'apiBaseUrl')" in
  (ok response = true
   /\ json response = inr ["alice"; "bob"]
   /\ headers_get (headers response) "x-next-page" = Some "2")
  /\ listOptionsToQueryString (Some options) = inr "?active=true&per_page=100"
  /\ pagedRequest Demo.saas_client "/users" (Some options) Demo.start = (inl e, Demo.start)
  /\ effects Demo.start = [].
Proof.
  intros options response e.
  split; [now repeat split|]. split; [reflexivity|].
  split; [now apply pagedRequest_undefined_config | reflexivity].
Qed.

(** The instance-wide listing on gitlab.com and on a self-managed host. *)
Lemma listUsers_instance_wide_witness :
  byUrl Demo.saas_client "https://gitlab.com" = Some (mkIntegration Demo.saas)
  /\ parseGroupUrl "https://gitlab.com" (baseUrl Demo.saas) = inr None
  /\ truthy (group_of None) = false
  /\ listUsers Demo.saas_client "https://gitlab.com" None Demo.start
     = (inr (paginated (fun opts => pagedRequest Demo.saas_client "/users" (Some opts))
               [("active", VBoolean true); ("per_page", VNumber (Int 100))]), Demo.start)
  /\ byUrl Demo.self_managed_client "https://gitlab.example.com"
     = Some (mkIntegration Demo.self_managed)
  /\ parseGroupUrl "https://gitlab.example.com" (baseUrl Demo.self_managed) = inr None
  /\ listUsers Demo.self_managed_client "https://gitlab.example.com" None Demo.start
     = (inl (Error "Getting all GitLab instance users is only supported for self-managed hosts."),
        Demo.start).
Proof.
  do 3 (split; [reflexivity|]).
  split.
  - apply (proj1 (listUsers_instance_wide Demo.saas_client "https://gitlab.com" None
                    Demo.start (mkIntegration Demo.saas) None eq_refl eq_refl eq_refl)).
    reflexivity.
  - do 2 (split; [reflexivity|]).
    apply (proj2 (listUsers_instance_wide Demo.self_managed_client
                    "https://gitlab.example.com" None Demo.start
                    (mkIntegration Demo.self_managed) None eq_refl eq_refl eq_refl)).
    discriminate.
Defined.

(** The instance-wide listing on gitlab.com. *)
Lemma listUsers_instance_wide_active_witness :
  let users :=
    paginated (fun opts => pagedRequest Demo.saas_client "/users" (Some opts))
      [("active", VBoolean true); ("per_page", VNumber (Int 100))] in
  byUrl Demo.saas_client "https://gitlab.com" = Some (mkIntegration Demo.saas)
  /\ parseGroupUrl "https://gitlab.com" (baseUrl Demo.saas) = inr None
  /\ truthy (group_of None) = false
  /\ host Demo.saas = "gitlab.com"
  /\ listUsers Demo.saas_client "https://gitlab.com" None Demo.start = (inr users, Demo.start)
  /\ forall n s0,
       let r := run n users s0 in
       g_request (generator_of r)
       = (fun opts => pagedRequest Demo.saas_client "/users" (Some opts))
       /\ Forall (fun f =>
                    get (fst f) "active" = VBoolean true
                    /\ get (fst f) "per_page" = VNumber (Int 100)
                    /\ (exists s1 s2,
                           pagedRequest Demo.saas_client "/users" (Some (fst f)) s1
                           = (snd f, s2))
                    /\ exists rest,
                         (rest = EmptyString \/ exists str, rest = "&page=" ++ str)
                         /\ listOptionsToQueryString (Some (fst f))
                            = inr ("?active=true&per_page=100" ++ rest)
                         /\ pagedRequest Demo.saas_client "/users" (Some (fst f))
                            = page_from Demo.saas_client
                                ("/users" ++ "?active=true&per_page=100" ++ rest))
            (fetches (trace_of r)).
Proof.
  intros users.
  do 4 (split; [reflexivity|]).
  exact (listUsers_instance_wide_active Demo.saas_client "https://gitlab.com" None
           Demo.start (mkIntegration Demo.saas) None eq_refl eq_refl eq_refl eq_refl).
Defined.

(** The members of the group [team], with [inherited] left out and with
    [inherited] set to [false]. *)
Lemma listUsers_group_members_endpoint_witness :
  byUrl Demo.saas_client "https://gitlab.com/team" = Some (mkIntegration Demo.saas)
  /\ parseGroupUrl "https://gitlab.com/team" (baseUrl Demo.saas) = inr (Some "team")
  /\ "team" <> EmptyString
  /\ listUsers Demo.saas_client "https://gitlab.com/team" None Demo.start
     = (inr (paginated
               (fun opts =>
                  pagedRequest Demo.saas_client "/groups/team/members/all" (Some opts))
               [("per_page", VNumber (Int 100))]), Demo.start)
  /\ listUsers Demo.saas_client "https://gitlab.com/team"
       (Some (mkUsersOptions (Some false) None)) Demo.start
     = (inr (paginated
               (fun opts =>
                  pagedRequest Demo.saas_client "/groups/team/members" (Some opts))
               [("per_page", VNumber (Int 100))]), Demo.start).
Proof.
  split; [reflexivity|]. split; [reflexivity|]. split; [discriminate|].
  split.
  - exact (proj2 (listUsers_group_members_endpoint Demo.saas_client
                    "https://gitlab.com/team" None Demo.start (mkIntegration Demo.saas)
                    "team" eq_refl eq_refl ltac:(discriminate))).
  - exact (proj2 (listUsers_group_members_endpoint Demo.saas_client
                    "https://gitlab.com/team" (Some (mkUsersOptions (Some false) None))
                    Demo.start (mkIntegration Demo.saas)
                    "team" eq_refl eq_refl ltac:(discriminate))).
Defined.

End Concrete.

(* ================================================================= *)
(** ** Further properties of the pagination engine *)

Section EngineFurther.

Context {W T : Type}.

Implicit Types (fs : list (ListOptions * (exn + PagedResponse T))).

Lemma final_options_shape fs :
  forall o, final_options o fs = o \/ exists v, final_options o fs = set o "page" v.
Proof.
  induction fs as [|[o1 [e|res]] fs IH]; intros o; simpl.
  - now left.
  - apply IH.
  - right. destruct (IH (set o "page" (nextPage res))) as [E|(v & E)]; rewrite E.
    + now exists (nextPage res).
    + exists v. apply set_set.
Qed.

Lemma keys_set (o : ListOptions) (key : string) (v : value) :
  (In key (keys o) /\ keys (set o key v) = keys o)
  \/ (~ In key (keys o) /\ set o key v = (o ++ [(key, v)])%list).
Proof.
  induction o as [|[k w] r IH]; simpl.
  - right. now split.
  - destruct (String.eqb_spec k key) as [->|ne].
    + left. split; [now left | reflexivity].
    + destruct IH as [[Hin E]|[Hin E]].
      * left. split; [now right | simpl; now rewrite E].
      * right. split; [|now rewrite E]. intros [H|H]; [contradiction | now apply Hin].
Qed.

Variable request : ListOptions -> M W (PagedResponse T).
Variable options : ListOptions.

(** X6. The engine changes nothing of the options object but the
    property [page]: at every point of a walk every other key reads as it
    did at the start, the keys keep their order, [page] is added last if
    it was missing, and nothing at all is changed before the first
    successful fetch. Every fetch is made with options that agree with
    the initial ones on every key but [page]. *)
Theorem paginated_mutates_only_page (s : W) (n : nat) :
  let r := run n (paginated request options) s in
  (forall key, key <> "page" -> get (g_options (generator_of r)) key = get options key)
  /\ (keys (g_options (generator_of r)) = keys options
      \/ (~ In "page" (keys options)
          /\ keys (g_options (generator_of r)) = (keys options ++ ["page"])%list))
  /\ (pages_served (fetches (trace_of r)) = [] -> g_options (generator_of r) = options)
  /\ Forall (fun f => forall key, key <> "page" -> get (fst f) key = get options key)
       (fetches (trace_of r)).
Proof.
  intros r. destruct r as [[tr g'] s'] eqn:E. subst r.
  unfold generator_of, trace_of; simpl.
  destruct (walk_invariant_holds request options n s s' tr g' E) as (_ & Ho & Hc & _).
  split; [|split; [|split]].
  - intros key Hkey. rewrite Ho.
    destruct (final_options_shape (fetches tr) options) as [->|(v & ->)]; [reflexivity|].
    apply get_set_other. congruence.
  - rewrite Ho.
    destruct (final_options_shape (fetches tr) options) as [->|(v & ->)]; [now left|].
    destruct (keys_set options "page" v) as [[_ Ek]|[Hin Ek]]; [now left|].
    right. split; [exact Hin|]. rewrite Ek. unfold keys. now rewrite map_app.
  - rewrite Ho. clear. generalize options.
    induction (fetches tr) as [|[o1 [e|res]] fs IH]; intros o H; simpl in *.
    + reflexivity.
    + now apply IH.
    + discriminate.
  - apply chained_options in Hc. revert Hc. apply Forall_impl.
    intros f [->|(v & ->)] key Hkey; [reflexivity|].
    apply get_set_other. congruence.
Qed.

Lemma blocks_app fs1 fs2 : blocks (fs1 ++ fs2) = (blocks fs1 ++ blocks fs2)%list.
Proof.
  induction fs1 as [|[o [e|res]] fs1 IH]; simpl; [reflexivity | now rewrite IH |].
  now rewrite IH, app_assoc.
Qed.

Lemma yielded_blocks fs : yielded (blocks fs) = List.concat (pages_served fs).
Proof.
  induction fs as [|[o [e|res]] fs IH]; simpl; [reflexivity | exact IH |].
  autorewrite with trace. now rewrite IH.
Qed.

Lemma in_blocks_step tr (g g' : AsyncGenerator W T) (s s' : W) tr1 :
  in_blocks tr g -> step g s = (tr1, g', s') -> in_blocks (tr ++ tr1) g'.
Proof.
  unfold in_blocks, step. destruct g as [rq o k]; simpl.
  destruct k as [|[|x rest] next|]; intros H Hstep.
  - destruct (rq o s) as [[e|res] s1]; injection Hstep as <- <- <-; simpl;
      rewrite fetches_app, blocks_app; simpl.
    + left. now rewrite <- H.
    + rewrite app_nil_r, <- H, <- app_assoc. reflexivity.
  - rewrite app_nil_r in H.
    destruct (truthy next); injection Hstep as <- <- <-; simpl;
      rewrite fetches_app; simpl; rewrite !app_nil_r.
    + exact H.
    + right. now rewrite <- H.
  - injection Hstep as <- <- <-. simpl.
    rewrite fetches_app; simpl. rewrite app_nil_r, <- app_assoc. exact H.
  - injection Hstep as <- <- <-. simpl. now rewrite app_nil_r.
Qed.

Lemma in_blocks_run n :
  forall tr0 (g g' : AsyncGenerator W T) (s s' : W) tr,
    in_blocks tr0 g -> run n g s = (tr, g', s') -> in_blocks (tr0 ++ tr) g'.
Proof.
  induction n as [|n IH]; intros tr0 g g' s s' tr H Hrun; simpl in Hrun.
  - injection Hrun as <- <- <-. now rewrite app_nil_r.
  - destruct (step g s) as [[tr1 g1] s1] eqn:Hstep.
    destruct (run n g1 s1) as [[tr2 g2] s2] eqn:Hrest.
    injection Hrun as <- <- <-. rewrite app_assoc.
    exact (IH _ _ _ _ _ _ (in_blocks_step _ _ _ _ _ _ H Hstep) Hrest).
Qed.

(** X7. At every point of a walk the trace is made of whole blocks, one
    per fetch: a successful fetch is followed by all the items of its
    page, in order, before anything else happens, and a failed one by the
    throw. So the items yielded are, in order and each once, the items of
    the pages fetched, up to those of the last page still to come; once
    the walk is over nothing is missing. *)
Theorem paginated_yields_pages_in_order (s : W) (n : nat) :
  let r := run n (paginated request options) s in
  let tr := trace_of r in
  match g_control (generator_of r) with
  | Loop =>
      tr = blocks (fetches tr)
      /\ yielded tr = List.concat (pages_served (fetches tr))
  | Items rest _ =>
      (tr ++ map Yielded rest)%list = blocks (fetches tr)
      /\ (yielded tr ++ rest)%list = List.concat (pages_served (fetches tr))
  | Done =>
      (tr = blocks (fetches tr) \/ tr = (blocks (fetches tr) ++ [Returned])%list)
      /\ yielded tr = List.concat (pages_served (fetches tr))
  end.
Proof.
  intros r tr. subst tr. destruct r as [[tr g'] s'] eqn:E. subst r.
  unfold generator_of, trace_of; simpl.
  pose proof (in_blocks_run n [] (paginated request options) g' s s' tr eq_refl E) as H.
  simpl in H. unfold in_blocks in H.
  destruct (g_control g') as [|rest next|].
  - split; [exact H|]. rewrite H at 1. apply yielded_blocks.
  - split; [exact H|]. rewrite <- yielded_blocks, <- H.
    autorewrite with trace. reflexivity.
  - split; [exact H|]. rewrite <- yielded_blocks.
    destruct H as [H|H]; rewrite H at 1; [reflexivity|].
    autorewrite with trace. simpl. now rewrite app_nil_r.
Qed.

(** X9. A failure ends the walk and is the only one: a trace holds at
    most one throw; a fetch that failed is the last fetch of the trace (it
    is not retried and nothing is fetched after it), its error is the one
    thrown, the generator is completed, and advancing it further changes
    nothing. *)
Theorem paginated_failure_is_final (s : W) (n : nat) :
  let r := run n (paginated request options) s in
  let tr := trace_of r in
  (thrown tr = [] \/ exists e, thrown tr = [e])
  /\ (forall o e,
         In (o, inl e) (fetches tr) ->
         (exists fs, fetches tr = (fs ++ [(o, inl e)])%list /\ Forall has_next fs)
         /\ thrown tr = [e]
         /\ ~ In Returned tr
         /\ g_control (generator_of r) = Done
         /\ forall m, (n <= m)%nat -> run m (paginated request options) s = r).
Proof.
  intros r tr. subst tr. destruct r as [[tr g'] s'] eqn:E. subst r.
  unfold generator_of, trace_of; simpl.
  destruct (walk_invariant_holds request options n s s' tr g' E) as (_ & _ & Hc & Hk).
  split.
  - destruct (g_control g') as [|rest next|].
    + left. now destruct Hk.
    + left. now destruct Hk.
    + destruct Hk as [(_ & _ & _ & _ & _ & Ht & _)|(_ & _ & e & _ & Ht & _)];
        [now left | right; now exists e].
  - intros o e Hin.
    destruct (fetches tr) as [|f0 fs0] eqn:Ef; [contradiction|].
    destruct (@exists_last _ (f0 :: fs0) ltac:(discriminate)) as (fs & f & Efs).
    rewrite Efs in *. clear Efs f0 fs0.
    pose proof (chained_has_next _ _ _ Hc) as Hnext.
    assert (Ef' : f = (o, inl e)).
    { apply in_app_or in Hin as [Hin|[Hin|[]]]; [|now symmetry].
      rewrite Forall_forall in Hnext. destruct (Hnext _ Hin) as (res & Hres & _).
      discriminate Hres. }
    subst f.
    assert (Hdone : g_control g' = Done /\ thrown tr = [e] /\ ~ In Returned tr).
    { destruct (g_control g') as [|rest next|].
      - destruct Hk as (_ & _ & Hall). apply Forall_app in Hall as [_ Hall].
        inversion Hall as [|? ? (res & Hres & _) _]; subst. discriminate Hres.
      - destruct Hk as (_ & _ & fs' & o' & res & Hf' & _).
        apply app_inj_tail in Hf' as [_ [=]].
      - destruct Hk as [(fs' & o' & res & Hf' & _)|(fs' & o' & e' & Hf' & Ht & Hr)].
        + apply app_inj_tail in Hf' as [_ [=]].
        + apply app_inj_tail in Hf' as [_ [= _ <-]]. now repeat split. }
    destruct Hdone as (Hd & Ht & Hr).
    split; [now exists fs|]. repeat split; try assumption.
    intros m Hm. exact (run_done_stable n m _ _ _ _ _ E Hd Hm).
Qed.

End EngineFurther.

(** From before a fetch, if every response names a next page, the walk
    reaches the point before the next fetch again, [k] fetches later. *)
Lemma walk_cycles {W T : Type} (request : ListOptions -> M W (PagedResponse T)) :
  (forall o s, exists res s',
      request o s = (inr res, s') /\ truthy (nextPage res) = true) ->
  forall (k : nat) (o : ListOptions) (s : W),
  exists n tr o' s',
    run n (mkGenerator request o Loop) s = (tr, mkGenerator request o' Loop, s')
    /\ List.length (fetches tr) = k.
Proof.
  intros Hnext. induction k as [|k IH]; intros o s.
  - now exists O, [], o, s.
  - destruct (Hnext o s) as (res & s1 & Hrq & Ht).
    destruct (IH (set o "page" (nextPage res)) s1) as (n & tr & o' & s' & Hrun & Hlen).
    exists (S (List.length (items res)) + (1 + n))%nat,
      ((Fetched o (inr res) :: map Yielded (items res)) ++ [] ++ tr)%list, o', s'.
    split.
    + eapply run_trans; [exact (run_page _ _ _ _ _ Hrq)|].
      eapply run_trans; [|exact Hrun].
      apply run_one. now apply step_while_true.
    + autorewrite with trace. simpl. autorewrite with trace. simpl. now rewrite Hlen.
Qed.

(** X8. The engine has no limit of its own: if the fetch function always
    succeeds and always names a next page, the walk never returns and never
    throws, however far it is advanced, and the number of fetches grows
    beyond every bound. *)
Theorem paginated_never_stops_while_next {W T : Type}
  (request : ListOptions -> M W (PagedResponse T)) (options : ListOptions) (s : W) :
  (forall o s, exists res s',
      request o s = (inr res, s') /\ truthy (nextPage res) = true) ->
  (forall n,
      let r := run n (paginated request options) s in
      g_control (generator_of r) <> Done
      /\ thrown (trace_of r) = []
      /\ ~ In Returned (trace_of r))
  /\ (forall k, exists n,
         (k <= List.length (fetches (trace_of (run n (paginated request options) s))))%nat).
Proof.
  intros Hnext. split.
  - intros n r. destruct r as [[tr g'] s'] eqn:E. subst r.
    unfold generator_of, trace_of; simpl.
    destruct (walk_invariant_holds request options n s s' tr g' E) as (_ & _ & _ & Hk).
    destruct (fetches_are_requests request n (paginated request options) g' s s' tr
                eq_refl E) as [_ Hreq].
    assert (Hlast : forall fs o r, fetches tr = (fs ++ [(o, r)])%list ->
                                   exists res, r = inr res /\ truthy (nextPage res) = true).
    { intros fs o r Hf. rewrite Hf in Hreq. apply Forall_app in Hreq as [_ Hreq].
      inversion Hreq as [|? ? (s0 & s1 & Hcall) _]; subst. simpl in Hcall.
      destruct (Hnext o s0) as (res & s1' & Hcall' & Ht).
      rewrite Hcall in Hcall'. injection Hcall' as -> _. now exists res. }
    destruct (g_control g') as [|rest next|].
    + destruct Hk as (Ht & Hr & _). now repeat split.
    + destruct Hk as (Ht & Hr & _). now repeat split.
    + exfalso.
      destruct Hk as [(fs & o & res & Hf & Hfalsy & _)|(fs & o & e & Hf & _)];
        destruct (Hlast _ _ _ Hf) as (res' & Hres & Ht); [|discriminate Hres].
      injection Hres as <-. congruence.
  - intros k. destruct (walk_cycles request Hnext k options s) as (n & tr & o' & s' & Hrun & Hlen).
    exists n. unfold paginated. rewrite Hrun. unfold trace_of; simpl. lia.
Qed.

(** A server whose every response names page 2 as the next page. *)
Lemma paginated_never_stops_while_next_witness :
  (forall (o : ListOptions) (s : nat), exists res s',
      Demo.stuck_on_page_2 o s = (inr res, s') /\ truthy (nextPage res) = true)
  /\ (forall n,
         let r := run n (paginated Demo.stuck_on_page_2 []) O in
         g_control (generator_of r) <> Done
         /\ thrown (trace_of r) = []
         /\ ~ In Returned (trace_of r))
  /\ (forall k, exists n,
         (k <= List.length (fetches (trace_of (run n (paginated Demo.stuck_on_page_2 []) O))))%nat).
Proof.
  assert (H : forall (o : ListOptions) (s : nat), exists res s',
             Demo.stuck_on_page_2 o s = (inr res, s') /\ truthy (nextPage res) = true).
  { intros o s. eexists _, _. split; reflexivity. }
  split; [exact H|].
  exact (paginated_never_stops_while_next Demo.stuck_on_page_2 [] O H).
Defined.

(* ================================================================= *)
(** ** Further properties of the query-string construction *)

(** The query string is the serialization of the pairs that the loop
    collects, behind a question mark unless there is none. *)
Lemma listOptionsToQueryString_search (o : ListOptions) :
  exists search : URLSearchParams,
    map fst search = filter (fun key => truthy (get o key)) (keys o)
    /\ Forall (fun p => toString (get o (fst p)) = inr (snd p)) search
    /\ listOptionsToQueryString (Some o)
       = inr match search with
             | [] => EmptyString
             | _ :: _ => String "?" (search_toString search)
             end.
Proof.
  destruct (for_in_spec o (keys o) []) as (search & E & Hk & Hv).
  exists search. split; [exact Hk|]. split; [exact Hv|].
  unfold listOptionsToQueryString. rewrite E. simpl.
  destruct search as [|p ps]; [reflexivity|].
  destruct (String.eqb_spec (search_toString (p :: ps)) EmptyString) as [E0|_];
    [|reflexivity].
  now apply search_toString_not_empty in E0.
Qed.

Lemma count_char_app (c : ascii) (a b : string) :
  count_char c (a ++ b) = (count_char c a + count_char c b)%nat.
Proof. induction a as [|x a IH]; simpl; [reflexivity | rewrite IH; lia]. Qed.

(** The characters that structure a URL never come out of the
    serializer of a name or a value. *)
Lemma urlencoded_byte_plain (c b : ascii) :
  mem_char c "&=?#/ " = true -> count_char c (urlencoded_byte b) = O.
Proof.
  intros Hc.
  assert (Hc' : c = "&"%char \/ c = "="%char \/ c = "?"%char \/ c = "#"%char
                \/ c = "/"%char \/ c = " "%char).
  { simpl in Hc. rewrite !orb_true_iff in Hc.
    repeat (destruct Hc as [Hc|Hc]; [apply Ascii.eqb_eq in Hc; tauto|]).
    discriminate Hc. }
  destruct Hc' as [->|[->|[->|[->|[->| ->]]]]];
    destruct b as [[|] [|] [|] [|] [|] [|] [|] [|]]; reflexivity.
Qed.

Lemma urlencoded_plain (c : ascii) (s : string) :
  mem_char c "&=?#/ " = true -> count_char c (urlencoded s) = O.
Proof.
  intros Hc. induction s as [|b s IH]; [reflexivity|].
  unfold urlencoded in *. simpl. now rewrite count_char_app, urlencoded_byte_plain, IH.
Qed.

Lemma count_char_pair (c : ascii) (p : string * string) :
  mem_char c "&=?#/ " = true ->
  count_char c (urlencoded_pair p) = if (c =? "=")%char then 1%nat else O.
Proof.
  intros Hc. unfold urlencoded_pair.
  rewrite !count_char_app, !urlencoded_plain by exact Hc. simpl. lia.
Qed.

Lemma concat_cons (sep x y : string) (l : list string) :
  String.concat sep (x :: y :: l) = x ++ sep ++ String.concat sep (y :: l).
Proof. reflexivity. Qed.

Lemma count_char_search (c : ascii) (search : URLSearchParams) :
  mem_char c "&=?#/ " = true ->
  count_char c (search_toString search)
  = ((if (c =? "=")%char then List.length search else O)
     + (if (c =? "&")%char then pred (List.length search) else O))%nat.
Proof.
  intros Hc. unfold search_toString.
  induction search as [|p ps IH].
  - simpl. now destruct (c =? "=")%char, (c =? "&")%char.
  - destruct ps as [|p2 ps].
    + simpl. rewrite count_char_pair by exact Hc.
      destruct (c =? "=")%char, (c =? "&")%char; reflexivity.
    + change (map urlencoded_pair (p :: p2 :: ps))
        with (urlencoded_pair p :: urlencoded_pair p2 :: map urlencoded_pair ps).
      rewrite concat_cons, !count_char_app, count_char_pair by exact Hc.
      change (urlencoded_pair p2 :: map urlencoded_pair ps)
        with (map urlencoded_pair (p2 :: ps)).
      rewrite IH. simpl count_char. simpl List.length.
      destruct (c =? "=")%char eqn:E1, (c =? "&")%char eqn:E2; try lia.
Qed.

(** X10. The query string has exactly the structure of its parameters:
    with n keys of truthy value it holds n equals signs, n - 1 ampersands,
    one question mark (its first character) unless n is 0, and no hash,
    slash or space. Whatever a key or a value contains, it cannot add a
    parameter, end the query or reach the path or the fragment. *)
Theorem listOptionsToQueryString_structure (options : option ListOptions) :
  let o := match options with Some o => o | None => [] end in
  let n := List.length (filter (fun key => truthy (get o key)) (keys o)) in
  exists q,
    listOptionsToQueryString options = inr q
    /\ count_char "=" q = n
    /\ count_char "&" q = pred n
    /\ count_char "?" q = Nat.min 1 n
    /\ count_char "#" q = O
    /\ count_char "/" q = O
    /\ count_char " " q = O
    /\ (n <> O -> exists rest, q = String "?" rest).
Proof.
  intros o n.
  destruct (listOptionsToQueryString_search o) as (search & Hk & _ & E).
  assert (Hn : List.length search = n).
  { subst n. rewrite <- Hk. now rewrite length_map. }
  exists (match search with
          | [] => EmptyString
          | _ :: _ => String "?" (search_toString search)
          end).
  split.
  { rewrite <- E. subst o. destruct options; [reflexivity|].
    unfold listOptionsToQueryString. reflexivity. }
  destruct search as [|p ps].
  - simpl in Hn. rewrite <- Hn. repeat split. intros H. now elim H.
  - cbn [count_char].
    rewrite !(count_char_search _ (p :: ps)) by reflexivity.
    rewrite Hn. simpl.
    repeat split; try lia.
    + destruct n; [discriminate Hn | reflexivity].
    + intros _. now eexists.
Qed.

(** An empty query: no parameter is serialized when every value is falsy. *)
Lemma listOptionsToQueryString_falsy (o : ListOptions) :
  (forall key, truthy (get o key) = false) ->
  listOptionsToQueryString (Some o) = inr EmptyString.
Proof.
  intros H. destruct (listOptionsToQueryString_search o) as (search & Hk & _ & E).
  rewrite filter_none in Hk by (intros key _; apply H).
  destruct search; [exact E | discriminate Hk].
Qed.

Lemma for_in_app (o : ListOptions) (ks1 ks2 : list string) :
  forall search,
    for_in o (ks1 ++ ks2)%list search
    = match for_in o ks1 search with
      | inr search' => for_in o ks2 search'
      | inl e => inl e
      end.
Proof.
  induction ks1 as [|k ks1 IH]; intros search; simpl; [reflexivity|].
  destruct (truthy (get o k)); [|apply IH].
  destruct (toString (get o k)); [reflexivity | apply IH].
Qed.

Lemma for_in_ext (o1 o2 : ListOptions) (ks : list string) :
  (forall key, In key ks -> get o1 key = get o2 key) ->
  forall search, for_in o1 ks search = for_in o2 ks search.
Proof.
  induction ks as [|k ks IH]; intros H search; simpl; [reflexivity|].
  rewrite (H k (or_introl eq_refl)).
  assert (H' : forall key, In key ks -> get o1 key = get o2 key)
    by (intros key Hin; apply H; now right).
  destruct (truthy (get o2 k)); [|now apply IH].
  destruct (toString (get o2 k)); [reflexivity | now apply IH].
Qed.

Lemma get_app_in (o o' : ListOptions) (key : string) :
  In key (keys o) -> get (o ++ o')%list key = get o key.
Proof.
  induction o as [|[k w] r IH]; intros Hin; simpl in *; [contradiction|].
  destruct (String.eqb_spec k key) as [_|ne]; [reflexivity|].
  destruct Hin as [Hin|Hin]; [contradiction | now apply IH].
Qed.

Lemma get_app_new (o o' : ListOptions) (key : string) :
  ~ In key (keys o) -> get (o ++ o')%list key = get o' key.
Proof.
  induction o as [|[k w] r IH]; intros Hin; simpl in *; [reflexivity|].
  destruct (String.eqb_spec k key) as [E|_]; [elim Hin; now left|].
  apply IH. intros H. apply Hin. now right.
Qed.

Lemma search_toString_snoc (search : URLSearchParams) (p : string * string) :
  search_toString (search ++ [p])%list
  = match search with
    | [] => urlencoded_pair p
    | _ :: _ => search_toString search ++ "&" ++ urlencoded_pair p
    end.
Proof.
  unfold search_toString. induction search as [|x [|y l] IH]; try reflexivity.
  change (map urlencoded_pair ((x :: y :: l) ++ [p])%list)
    with (urlencoded_pair x :: urlencoded_pair y :: map urlencoded_pair (l ++ [p])%list).
  rewrite concat_cons.
  change (urlencoded_pair y :: map urlencoded_pair (l ++ [p])%list)
    with (map urlencoded_pair ((y :: l) ++ [p])%list).
  rewrite IH.
  change (map urlencoded_pair (x :: y :: l))
    with (urlencoded_pair x :: urlencoded_pair y :: map urlencoded_pair l).
  rewrite concat_cons. now rewrite !string_app_assoc.
Qed.

(** The query string once [page] has been assigned to options that had
    no such key: the page parameter comes last, if the page is truthy. *)
Lemma query_with_page (o : ListOptions) (v : value) (q : string) :
  ~ In "page" (keys o) ->
  listOptionsToQueryString (Some o) = inr q ->
  (truthy v = false -> listOptionsToQueryString (Some (set o "page" v)) = inr q)
  /\ (truthy v = true ->
      exists str,
        toString v = inr str
        /\ listOptionsToQueryString (Some (set o "page" v))
           = inr (q ++ (if (q =? EmptyString)%string then "?" else "&")
                    ++ "page=" ++ urlencoded str)).
Proof.
  intros Hnew Hq.
  destruct (keys_set o "page" v) as [[Hin _]|[_ Eset]]; [contradiction|].
  destruct (for_in_spec o (keys o) []) as (search & E & _ & _). simpl in E.
  assert (Eq : q = match search with
                   | [] => EmptyString
                   | _ :: _ => String "?" (search_toString search)
                   end).
  { unfold listOptionsToQueryString in Hq. rewrite E in Hq. simpl in Hq.
    injection Hq as <-. destruct search as [|p ps]; [reflexivity|].
    destruct (String.eqb_spec (search_toString (p :: ps)) EmptyString) as [E0|_];
      [|reflexivity].
    now apply search_toString_not_empty in E0. }
  assert (Eloop : for_in (set o "page" v) (keys (set o "page" v)) []
                  = for_in (o ++ [("page", v)])%list ["page"] search).
  { rewrite Eset. unfold keys. rewrite map_app, for_in_app.
    rewrite (for_in_ext (o ++ [("page", v)])%list o) by (intros key Hin; now apply get_app_in).
    fold (keys o). now rewrite E. }
  assert (Epage : get (o ++ [("page", v)])%list "page" = v).
  { rewrite get_app_new by exact Hnew. reflexivity. }
  split; intros Hv.
  - unfold listOptionsToQueryString. rewrite Eloop. simpl. rewrite Epage, Hv.
    rewrite Eq. destruct search as [|p ps]; [reflexivity|].
    destruct (String.eqb_spec (search_toString (p :: ps)) EmptyString) as [E0|_];
      [|reflexivity].
    now apply search_toString_not_empty in E0.
  - destruct (toString_truthy v Hv) as (str & Hs). exists str. split; [exact Hs|].
    unfold listOptionsToQueryString. rewrite Eloop. simpl. rewrite Epage, Hv, Hs.
    unfold append. rewrite search_toString_snoc.
    rewrite Eq. destruct search as [|p ps]; [reflexivity|].
    destruct (String.eqb_spec
                (search_toString (p :: ps) ++ "&" ++ urlencoded_pair ("page", str))
                EmptyString) as [E0|_].
    { destruct (search_toString (p :: ps)) eqn:Es;
        [now apply search_toString_not_empty in Es | discriminate E0]. }
    reflexivity.
Qed.

(** The page requests of a walk that starts from options without a
    [page] key: each is made with the initial options, up to [page], and
    its query string is the initial one, followed by the page parameter or
    by nothing. *)
Lemma walk_queries {W T : Type}
  (request : ListOptions -> M W (PagedResponse T)) (options : ListOptions)
  (s : W) (n : nat) (q : string) :
  ~ In "page" (keys options) ->
  listOptionsToQueryString (Some options) = inr q ->
  Forall (fun f =>
            (forall key, key <> "page" -> get (fst f) key = get options key)
            /\ exists rest,
                 (rest = EmptyString
                  \/ exists str,
                       rest = (if (q =? EmptyString)%string then "?" else "&")
                              ++ "page=" ++ str)
                 /\ listOptionsToQueryString (Some (fst f)) = inr (q ++ rest))
    (fetches (trace_of (run n (paginated request options) s))).
Proof.
  intros Hnew Hq.
  destruct (run n (paginated request options) s) as [[tr g'] s'] eqn:E.
  unfold trace_of; simpl.
  destruct (walk_invariant_holds request options n s s' tr g' E) as (_ & _ & Hc & _).
  apply chained_options in Hc. revert Hc. apply Forall_impl.
  intros f [->|(v & ->)].
  - split; [reflexivity|]. exists EmptyString.
    split; [now left | now rewrite string_app_empty_r].
  - split; [intros key Hkey; apply get_set_other; congruence|].
    destruct (query_with_page options v q Hnew Hq) as [Hfalsy Htruthy].
    destruct (truthy v) eqn:Hv.
    + destruct (Htruthy eq_refl) as (str & _ & E'). rewrite E'.
      eexists. split; [right; eexists; reflexivity | reflexivity].
    + rewrite (Hfalsy eq_refl). exists EmptyString.
      split; [now left | now rewrite string_app_empty_r].
Qed.

(** X11. In a walk that starts from options without a [page] key, every
    page request carries the query string of the initial options, either
    as it is or followed by the page parameter as the last one:
    [&page=...], or [?page=...] when the initial query string is empty. No
    request drops or reorders a parameter of the caller. *)
Theorem paginated_query_strings {W T : Type}
  (request : ListOptions -> M W (PagedResponse T)) (options : ListOptions)
  (s : W) (n : nat) (q : string) :
  ~ In "page" (keys options) ->
  listOptionsToQueryString (Some options) = inr q ->
  Forall (fun f =>
            listOptionsToQueryString (Some (fst f)) = inr q
            \/ exists str,
                 truthy (get (fst f) "page") = true
                 /\ toString (get (fst f) "page") = inr str
                 /\ listOptionsToQueryString (Some (fst f))
                    = inr (q ++ (if (q =? EmptyString)%string then "?" else "&")
                             ++ "page=" ++ urlencoded str))
    (fetches (trace_of (run n (paginated request options) s))).
Proof.
  intros Hnew Hq.
  destruct (run n (paginated request options) s) as [[tr g'] s'] eqn:E.
  unfold trace_of; simpl.
  destruct (walk_invariant_holds request options n s s' tr g' E) as (_ & _ & Hc & _).
  apply chained_options in Hc. revert Hc. apply Forall_impl.
  intros f [->|(v & ->)]; [now left|].
  destruct (query_with_page options v q Hnew Hq) as [Hfalsy Htruthy].
  rewrite get_set_same.
  destruct (truthy v) eqn:Hv.
  - right. destruct (Htruthy eq_refl) as (str & Hs & E'). now exists str.
  - left. now apply Hfalsy.
Qed.

(** The walk over three pages, from [per_page: 100]. *)
Lemma paginated_query_strings_witness :
  let request := Demo.serve_pages Demo.three_pages in
  let options := [("per_page", VNumber (Int 100))] in
  let q := "?per_page=100" in
  ~ In "page" (keys options)
  /\ listOptionsToQueryString (Some options) = inr q
  /\ Forall (fun f =>
               listOptionsToQueryString (Some (fst f)) = inr q
               \/ exists str,
                    truthy (get (fst f) "page") = true
                    /\ toString (get (fst f) "page") = inr str
                    /\ listOptionsToQueryString (Some (fst f))
                       = inr (q ++ (if (q =? EmptyString)%string then "?" else "&")
                                ++ "page=" ++ urlencoded str))
       (fetches (trace_of (run 10 (paginated request options) O))).
Proof.
  intros request options q.
  assert (Hnew : ~ In "page" (keys options)).
  { intros [H|[]]. discriminate H. }
  split; [exact Hnew|]. split; [reflexivity|].
  exact (paginated_query_strings request options O 10 q Hnew eq_refl).
Defined.

(* ================================================================= *)
(** ** Decimal numerals: from the header to the page parameter *)

(** A character that is no white space, and no byte of one, stops [strip]. *)
Lemma strip_head (back : bool) (a : ascii) (r : string) :
  ws1 a = false ->
  (forall b, ws2 a b = false /\ ws2 b a = false) ->
  (forall b c, ws3 a b c = false /\ ws3 c b a = false) ->
  strip back (String a r) = String a r.
Proof.
  intros H1 H2 H3. cbn [strip]. rewrite H1.
  destruct r as [|b [|c r3]]; [reflexivity|..].
  - destruct (H2 b) as [E E']. now destruct back; rewrite ?E, ?E'.
  - destruct (H2 b) as [E E'], (H3 b c) as [F F'].
    now destruct back; rewrite ?E, ?E', ?F, ?F'.
Qed.

Lemma strip_numeral (back : bool) (d : Decimal.uint) :
  strip back (NilEmpty.string_of_uint d) = NilEmpty.string_of_uint d.
Proof.
  destruct d as [|d|d|d|d|d|d|d|d|d|d]; [reflexivity|..];
    (cbn [NilEmpty.string_of_uint]; apply strip_head;
     [ reflexivity
     | intros b; split; [reflexivity | unfold ws2; cbn; now rewrite andb_false_r]
     | intros b c; split; [reflexivity|];
       unfold ws3, between; cbn; now rewrite ?andb_false_r ]).
Qed.

Lemma rev_string_numeral (d acc : Decimal.uint) :
  rev_string (NilEmpty.string_of_uint acc) (NilEmpty.string_of_uint d)
  = NilEmpty.string_of_uint (Decimal.revapp d acc).
Proof.
  revert acc. induction d; intros acc; simpl; [reflexivity|..];
    match goal with
    | |- rev_string (String ?c _) _ = NilEmpty.string_of_uint (Decimal.revapp _ ?a) =>
        exact (IHd a)
    end.
Qed.

Lemma rev_numeral (d : Decimal.uint) :
  rev_string EmptyString (NilEmpty.string_of_uint d)
  = NilEmpty.string_of_uint (Decimal.rev d).
Proof. exact (rev_string_numeral d Decimal.Nil). Qed.

Lemma rev_string_rev_string (s acc1 acc2 : string) :
  rev_string acc2 (rev_string acc1 s) = rev_string (s ++ acc2) acc1.
Proof.
  revert acc1. induction s as [|c r IH]; intros acc1; simpl; [reflexivity|].
  now rewrite IH.
Qed.

Lemma trim_numeral (d : Decimal.uint) :
  trim (NilEmpty.string_of_uint d) = NilEmpty.string_of_uint d.
Proof.
  unfold trim. rewrite strip_numeral, rev_numeral, strip_numeral, <- rev_numeral.
  rewrite rev_string_rev_string. simpl. apply string_app_empty_r.
Qed.

Lemma span_digits_numeral (d : Decimal.uint) :
  span_digits (NilEmpty.string_of_uint d) = (NilEmpty.string_of_uint d, EmptyString).
Proof.
  induction d; simpl; [reflexivity|..]; now rewrite IHd.
Qed.

Lemma read_digits_digit (c : ascii) (k acc : N) (rest : string) :
  digit_value c = Some k -> (k <? 10)%N = true ->
  read_digits 10 acc (String c rest) = read_digits 10 (acc * 10 + k) rest.
Proof. intros Hc Hk. simpl. now rewrite Hc, Hk. Qed.

Lemma read_digits_acc (d : Decimal.uint) :
  forall acc : positive,
    read_digits 10 (Npos acc) (NilEmpty.string_of_uint d)
    = Some (Npos (Pos.of_uint_acc d acc)).
Proof.
  induction d; intros acc; cbn [NilEmpty.string_of_uint Pos.of_uint_acc];
    [reflexivity|..];
    (erewrite read_digits_digit by reflexivity; rewrite <- IHd;
     apply (f_equal (fun a => read_digits 10 a _));
     match goal with |- context [(code ?c - 48)%N] =>
       let v := eval vm_compute in (code c - 48)%N in change (code c - 48)%N with v
     end; lia).
Qed.

Lemma read_digits_numeral (d : Decimal.uint) :
  read_digits 10 0 (NilEmpty.string_of_uint d) = Some (Pos.of_uint d).
Proof.
  induction d; simpl; [reflexivity | exact IHd |..]; apply read_digits_acc.
Qed.

Lemma urlencoded_numeral (d : Decimal.uint) :
  urlencoded (NilEmpty.string_of_uint d) = NilEmpty.string_of_uint d.
Proof.
  unfold urlencoded. induction d; simpl; [reflexivity|..]; now rewrite IHd.
Qed.

Lemma digits_pos (p : positive) :
  digits (Npos p) = NilEmpty.string_of_uint (Pos.to_uint p).
Proof.
  unfold digits, NilZero.string_of_uint. simpl.
  pose proof (DecimalPos.Unsigned.to_uint_nonnil p) as H.
  now destruct (Pos.to_uint p).
Qed.

(** The numeral of an integer up to 2^53 is short of the exponent
    notation of Number::toString. *)
Lemma usize_nb_digits (d : Decimal.uint) :
  DecimalPos.Unsigned.usize d = N.of_nat (Decimal.nb_digits d).
Proof.
  induction d; cbn [DecimalPos.Unsigned.usize Decimal.nb_digits];
    rewrite ?IHd; lia.
Qed.

Lemma string_of_uint_length (d : Decimal.uint) :
  String.length (NilEmpty.string_of_uint d) = Decimal.nb_digits d.
Proof. induction d; simpl; now rewrite ?IHd. Qed.

Lemma to_uint_head (p : positive) :
  exists r, (10 ^ DecimalPos.Unsigned.usize r <= Npos p)%N
            /\ Decimal.nb_digits (Pos.to_uint p) = S (Decimal.nb_digits r).
Proof.
  pose proof (DecimalPos.Unsigned.of_to p) as Hof.
  pose proof (DecimalPos.Unsigned.to_of (Pos.to_uint p)) as Hto.
  rewrite Hof in Hto. change (N.to_uint (Npos p)) with (Pos.to_uint p) in Hto.
  pose proof (DecimalPos.Unsigned.to_uint_nonzero p) as Hnz.
  pose proof (DecimalPos.Unsigned.to_uint_nonnil p) as Hnil.
  destruct (Pos.to_uint p) as [|r|r|r|r|r|r|r|r|r|r] eqn:Ed; [contradiction|..];
    try (exists r; split; [|reflexivity];
         rewrite <- Hof; cbn [Pos.of_uint];
         rewrite DecimalPos.Unsigned.of_uint_acc_rev; lia).
  exfalso.
  assert (Hr : r <> Decimal.Nil) by (intros ->; now apply Hnz).
  pose proof (DecimalFacts.nb_digits_unorm r Hr) as Hle.
  change (Decimal.unorm (Decimal.D0 r)) with (Decimal.unorm r) in Hto.
  rewrite <- Hto in Hle. cbn [Decimal.nb_digits] in Hle. lia.
Qed.

Lemma digits_length_safe (p : positive) :
  (Z.pos p <= 9007199254740992)%Z -> (String.length (digits (Npos p)) <= 21)%nat.
Proof.
  intros Hp. rewrite digits_pos, string_of_uint_length.
  destruct (to_uint_head p) as (r & Hr & ->).
  rewrite usize_nb_digits in Hr.
  destruct (Nat.le_gt_cases (S (Decimal.nb_digits r)) 21) as [H|H]; [exact H|exfalso].
  assert (H21 : (10 ^ 21 <= 10 ^ N.of_nat (Decimal.nb_digits r))%N)
    by (apply N.pow_le_mono_r; lia).
  change (10 ^ 21)%N with 1000000000000000000000%N in H21. lia.
Qed.

(** The decimal of an integer up to 2^53 is read as that integer. *)
Lemma of_decimal_safe (p : positive) :
  (Z.pos p <= 9007199254740992)%Z -> of_decimal false (Npos p) 0 = Int (Z.pos p).
Proof.
  intros Hp. pose proof (digits_length_safe p Hp) as Hlen.
  unfold of_decimal. cbv zeta.
  change (Npos p =? 0)%N with false. cbv iota.
  replace (400 <? Z.of_nat (String.length (digits (Npos p))) + 0) with false
    by (symmetry; apply Z.ltb_ge; lia).
  replace (Z.of_nat (String.length (digits (Npos p))) + 0 <? - 400) with false
    by (symmetry; apply Z.ltb_ge; lia).
  change (0 <=? 0) with true. cbv iota.
  change (10 ^ 0) with 1. rewrite !Z.mul_1_r.
  change (2 ^ 53) with 9007199254740992.
  replace (Z.of_N (Npos p) <=? 9007199254740992) with true
    by (symmetry; apply Z.leb_le; exact Hp).
  reflexivity.
Qed.

(** [Number] reads the decimal numeral of a positive integer up to 2^53
    as that integer. *)
Lemma Number_digits (p : positive) :
  (Z.pos p <= 9007199254740992)%Z -> Number (digits (Npos p)) = Int (Z.pos p).
Proof.
  intros Hp. rewrite digits_pos.
  pose proof (DecimalPos.Unsigned.of_to p) as Hval.
  pose proof (DecimalPos.Unsigned.to_uint_nonnil p) as Hnil.
  pose proof (of_decimal_safe p Hp) as Hsafe.
  set (d := Pos.to_uint p) in *. clearbody d.
  assert (Hparse : parse_unsigned_decimal false (NilEmpty.string_of_uint d) = Int (Z.pos p)).
  { unfold parse_unsigned_decimal.
    replace ((NilEmpty.string_of_uint d =? "Infinity")%string) with false
      by (destruct d; try reflexivity; now elim Hnil).
    rewrite span_digits_numeral. cbv beta iota. rewrite string_app_empty_r.
    destruct (NilEmpty.string_of_uint d) as [|a r] eqn:Es;
      [destruct d; try discriminate Es; now elim Hnil|].
    cbv beta iota zeta. rewrite <- Es, read_digits_numeral, Hval.
    unfold parse_exponent. cbn [String.length Z.of_nat Z.sub Z.opp]. exact Hsafe. }
  unfold Number. rewrite trim_numeral. rewrite <- Hparse.
  destruct d as [|d'|d'|d'|d'|d'|d'|d'|d'|d'|d']; [now elim Hnil|..]; try reflexivity.
  cbn [NilEmpty.string_of_uint]. destruct d'; reflexivity.
Qed.

Lemma strip_trailing_zeros_spec (s : string) :
  (String.length (strip_trailing_zeros s) <= String.length s)%nat
  /\ strip_trailing_zeros s
     ++ zeros (String.length s - String.length (strip_trailing_zeros s))
     = s.
Proof.
  induction s as [|c r [Hlen IH]]; [now split|].
  simpl strip_trailing_zeros.
  destruct (strip_trailing_zeros r) as [|x r'] eqn:E.
  - simpl in IH. rewrite Nat.sub_0_r in IH.
    destruct (Ascii.eqb_spec c "0") as [->|ne]; simpl.
    + split; [lia|]. now rewrite IH.
    + split; [lia|]. now rewrite Nat.sub_0_r, IH.
  - simpl in *. split; [lia|]. now rewrite IH.
Qed.

(** The decimal numeral of a positive integer of at most 21 digits is
    what [toString] gives for it. *)
Lemma number_toString_digits (p : positive) :
  (String.length (digits (Npos p)) <= 21)%nat ->
  number_toString (Int (Z.pos p)) = digits (Npos p).
Proof.
  intros Hlen. unfold number_toString, signed. simpl Z.abs_N. simpl (Z.pos p <? 0).
  cbv iota. set (d := digits (Npos p)) in *.
  destruct (strip_trailing_zeros_spec d) as [Hk Hd].
  unfold positive_toString.
  replace ((Z.of_nat (String.length (strip_trailing_zeros d)) <=? Z.of_nat (String.length d))
           && (Z.of_nat (String.length d) <=? 21)) with true
    by (symmetry; apply andb_true_iff; split; apply Z.leb_le; lia).
  replace (Z.to_nat (Z.of_nat (String.length d)
                     - Z.of_nat (String.length (strip_trailing_zeros d))))
    with (String.length d - String.length (strip_trailing_zeros d))%nat by lia.
  exact Hd.
Qed.

Section Cursor.

Context {I : Imports}.

(** X12. The page cursor survives the round trip from a response to the
    next request: when a response carries, as its next-page header, the
    decimal numeral of a positive integer (up to 2^53, the integers that a
    number holds exactly), the page that the callback of [pagedRequest]
    makes of it reports that integer as the next page; [paginated], given
    that page, assigns the integer to [options.page] and goes on; and for
    options that had no [page] key, the query string of the next request
    is the one of the options followed by the page parameter whose value
    is, character for character, the header. *)
Theorem next_page_round_trip (o : ListOptions) (q : string)
  (response : Response Item) (body : list Item) (p : positive) :
  ~ In "page" (keys o) ->
  listOptionsToQueryString (Some o) = inr q ->
  headers_get (headers response) "x-next-page" = Some (digits (Npos p)) ->
  (Z.pos p <= 9007199254740992)%Z ->
  let page := paged_response response body in
  page = mkPaged body (VNumber (Int (Z.pos p)))
  /\ (forall (request : ListOptions -> M store (PagedResponse Item)) (s s' : store),
         request o s = (inr page, s') ->
         let r := run (S (S (List.length body))) (paginated request o) s in
         g_options (generator_of r) = set o "page" (VNumber (Int (Z.pos p)))
         /\ g_control (generator_of r) = Loop
         /\ yielded (trace_of r) = body)
  /\ listOptionsToQueryString (Some (set o "page" (VNumber (Int (Z.pos p)))))
     = inr (q ++ (if (q =? EmptyString)%string then "?" else "&")
              ++ "page=" ++ digits (Npos p)).
Proof.
  intros Hnew Hq Hh Hsafe page.
  pose proof (digits_length_safe p Hsafe) as Hlen.
  assert (Hpage : page = mkPaged body (VNumber (Int (Z.pos p)))).
  { subst page. unfold paged_response. cbv zeta. rewrite Hh, (Number_digits p Hsafe).
    replace (truthy (VString (digits (Npos p)))) with true; [reflexivity|].
    rewrite digits_pos. simpl.
    pose proof (DecimalPos.Unsigned.to_uint_nonnil p) as Hnil.
    now destruct (Pos.to_uint p). }
  split; [exact Hpage|]. split.
  - intros request s s' Hr. rewrite Hpage in Hr. cbv zeta.
    pose proof (run_page request o s _ s' Hr) as R1. cbn [items nextPage] in R1.
    pose proof (run_one _ _ _ _ _
                  (step_while_true request (set o "page" (VNumber (Int (Z.pos p))))
                     (VNumber (Int (Z.pos p))) s' eq_refl)) as R2.
    pose proof (run_trans _ _ _ _ _ _ _ _ _ _ R1 R2) as R.
    replace (S (S (List.length body))) with (S (List.length body) + 1)%nat by lia.
    unfold paginated. rewrite R. unfold generator_of, trace_of; simpl.
    split; [reflexivity|]. split; [reflexivity|].
    autorewrite with trace. simpl. now rewrite app_nil_r.
  - destruct (query_with_page o (VNumber (Int (Z.pos p))) q Hnew Hq) as [_ H].
    destruct (H eq_refl) as (str & Hs & E).
    cbn [toString] in Hs. injection Hs as <-.
    rewrite E.
    change (signed (Z.pos p)
              (positive_toString (strip_trailing_zeros (digits (Npos p)))
                 (Z.of_nat (String.length (digits (Npos p))))))
      with (number_toString (Int (Z.pos p))).
    rewrite (number_toString_digits p Hlen).
    now rewrite digits_pos, urlencoded_numeral.
Qed.

End Cursor.

(* ================================================================= *)
(** ** Further properties of the request layer *)

Section RequestFurther.

Context {I : Imports}.

Variable this : GitLabClient.

Lemma listOptionsToQueryString_total (options : option ListOptions) :
  exists q, listOptionsToQueryString options = inr q.
Proof. apply query_string_total. Qed.

(** X3. On an object that the constructor made, the request layer never
    reaches the transport: whatever the endpoint, the request options, the
    listing options and the state of the world, [request] and
    [pagedRequest] throw the TypeError of reading
    [this.config.apiBaseUrl] and leave the world and the effects as they
    were: no URL is parsed, no debug line written, no request sent, and no
    response or page is ever returned. *)
Theorem request_never_reaches_transport (endpoint : string) (init : option RequestInit)
  (options : option ListOptions) (s : store) :
  this_config this = None ->
  let e := TypeError "Cannot read properties of undefined (reading 'apiBaseUrl')" in
  request this endpoint init s = (inl e, s)
  /\ pagedRequest this endpoint options s = (inl e, s)
  /\ (forall response s', request this endpoint init s <> (inr response, s'))
  /\ (forall page s', pagedRequest this endpoint options s <> (inr page, s')).
Proof.
  intros H e.
  pose proof (request_undefined_config this endpoint init s H) as R.
  pose proof (pagedRequest_undefined_config this endpoint options s H) as P.
  split; [exact R|]. split; [exact P|].
  split; intros x s' E; [rewrite R in E | rewrite P in E]; discriminate E.
Qed.

(** The next page that the callback of [pagedRequest] reads off the
    header. *)
Lemma paged_response_header (response : Response Item) (body : list Item) :
  nextPage (paged_response response body)
  = match headers_get (headers response) "x-next-page" with
    | None => VNull
    | Some h => if (h =? EmptyString)%string then VNull else VNumber (Number h)
    end.
Proof.
  unfold paged_response. cbn [nextPage].
  destruct (headers_get (headers response) "x-next-page") as [h|]; [|reflexivity].
  simpl. now destruct (h =? EmptyString)%string.
Qed.

(** X4. The page that the callback of [pagedRequest] makes of a
    response, and what [paginated] does with it. The items are the decoded
    body. The next page is [null] when the next-page header is absent or
    empty and [Number(header)] otherwise, a number whatever the header
    holds. The walk yields the items and then goes on to a further page
    exactly when that value is truthy: it returns after this page when the
    header is absent or empty, and also when [Number(header)] is [NaN]
    (a header that is not numeric) or zero. *)
Theorem paged_response_next_page (response : Response Item) (body : list Item) :
  let page := paged_response response body in
  let header := headers_get (headers response) "x-next-page" in
  items page = body
  /\ (header = None \/ header = Some EmptyString -> nextPage page = VNull)
  /\ (forall h, header = Some h -> h <> EmptyString ->
                nextPage page = VNumber (Number h)
                /\ (truthy (nextPage page) = false <->
                    Number h = NaN \/ Number h = Int 0 \/ exists e, Number h = Frac 0 e))
  /\ (forall (request : ListOptions -> M store (PagedResponse Item)) (o : ListOptions)
        (s s' : store),
         request o s = (inr page, s') ->
         let r := run (S (S (List.length body))) (paginated request o) s in
         yielded (trace_of r) = body
         /\ List.length (fetches (trace_of r)) = 1%nat
         /\ g_options (generator_of r) = set o "page" (nextPage page)
         /\ (truthy (nextPage page) = true ->
             g_control (generator_of r) = Loop /\ ~ In Returned (trace_of r))
         /\ (truthy (nextPage page) = false ->
             g_control (generator_of r) = Done /\ In Returned (trace_of r))).
Proof.
  intros page header.
  pose proof (paged_response_header response body) as Hnext.
  fold page header in Hnext.
  split; [reflexivity|]. split; [|split].
  - intros [E|E]; rewrite E in Hnext; exact Hnext.
  - intros h E Hne. rewrite E in Hnext.
    destruct (String.eqb_spec h EmptyString); [contradiction|].
    split; [exact Hnext|]. rewrite Hnext.
    destruct (Number h) as [|neg|z|m e]; simpl.
    + split; [now left | reflexivity].
    + split; [discriminate | intros [H|[H|(e & H)]]; discriminate H].
    + destruct (Z.eqb_spec z 0) as [->|ne]; simpl.
      * split; [now right; left | reflexivity].
      * split; [discriminate|].
        intros [H|[H|(e & H)]]; try discriminate H. injection H as ->. contradiction.
    + destruct (Z.eqb_spec m 0) as [->|ne]; simpl.
      * split; [right; right; now exists e | reflexivity].
      * split; [discriminate|].
        intros [H|[H|(e' & H)]]; try discriminate H. injection H as -> _. contradiction.
  - intros request o s s' Hr. cbv zeta.
    pose proof (run_page request o s page s' Hr) as R1.
    replace (items page) with body in R1 by reflexivity.
    replace (S (S (List.length body))) with (S (List.length body) + 1)%nat by lia.
    unfold paginated.
    destruct (truthy (nextPage page)) eqn:Ht.
    + pose proof (run_one _ _ _ _ _
                    (step_while_true request (set o "page" (nextPage page))
                       (nextPage page) s' Ht)) as R2.
      rewrite (run_trans _ _ _ _ _ _ _ _ _ _ R1 R2).
      unfold generator_of, trace_of; simpl.
      autorewrite with trace. simpl. rewrite !app_nil_r.
      split; [reflexivity|]. split; [reflexivity|]. split; [reflexivity|].
      split; [|discriminate]. intros _. split; [reflexivity|].
      intros [H|H]; [discriminate H|].
      apply in_map_iff in H as (x & H & _). discriminate H.
    + pose proof (run_one _ _ _ _ _
                    (step_while_false request (set o "page" (nextPage page))
                       (nextPage page) s' Ht)) as R2.
      rewrite (run_trans _ _ _ _ _ _ _ _ _ _ R1 R2).
      unfold generator_of, trace_of; simpl.
      autorewrite with trace. simpl. rewrite !app_nil_r.
      split; [reflexivity|]. split; [reflexivity|]. split; [reflexivity|].
      split; [discriminate|]. intros _. split; [reflexivity|].
      right. apply in_or_app. right. now left.
Qed.

(** X5. Options that hold nothing truthy are no options: with every value
    absent, [false], [0], [NaN], [null] or empty, the query string is
    empty and [pagedRequest] does what it does without options: it asks
    [request] for the bare endpoint, with no question mark. In particular
    page 0 cannot be asked for. *)
Theorem pagedRequest_falsy_options (endpoint : string) (o : ListOptions) (s : store) :
  (forall key, truthy (get o key) = false) ->
  pagedRequest this endpoint (Some o) s = pagedRequest this endpoint None s
  /\ listOptionsToQueryString (Some o) = inr EmptyString
  /\ pagedRequest this endpoint (Some o) = page_from this endpoint
  /\ pagedRequest this endpoint None = page_from this endpoint.
Proof.
  intros H. pose proof (listOptionsToQueryString_falsy o H) as HQ.
  assert (E : forall options, listOptionsToQueryString options = inr EmptyString ->
                              pagedRequest this endpoint options = page_from this endpoint).
  { intros options HQ'. rewrite (pagedRequest_path this endpoint options _ HQ').
    now rewrite string_app_empty_r. }
  split; [now rewrite (E _ HQ), (E None eq_refl)|].
  split; [exact HQ|]. split; [exact (E _ HQ) | exact (E None eq_refl)].
Qed.

End RequestFurther.

(* ================================================================= *)
(** ** Walks of the client *)

Section ClientWalks.

Context {I : Imports}.

Variable this : GitLabClient.

(** A walk over an endpoint, on an object that the constructor made: the
    first page request throws, and that is the whole walk. *)
Lemma walk_undefined_config (endpoint : string) (options : ListOptions) (s : store)
  (n : nat) :
  this_config this = None ->
  run (S n) (paginated (fun o => pagedRequest this endpoint (Some o)) options) s
  = ([Fetched options (inl (undefined_property "apiBaseUrl"));
      Thrown (undefined_property "apiBaseUrl")],
     mkGenerator (fun o => pagedRequest this endpoint (Some o)) options Done, s).
Proof.
  intros H.
  pose proof (run_one _ _ _ _ _
                (step_fetch_fail (fun o => pagedRequest this endpoint (Some o)) options s _ s
                   (pagedRequest_undefined_config this endpoint (Some options) s H))) as R1.
  pose proof (run_done n (mkGenerator (fun o => pagedRequest this endpoint (Some o))
                            options Done) s eq_refl) as R2.
  pose proof (run_trans _ _ _ _ _ _ _ _ _ _ R1 R2) as R.
  now rewrite app_nil_r in R.
Qed.

(** X15. On an object that the constructor made, no walk of the client
    gets anywhere: whatever the endpoint and the options, and so for the
    walk of every listing operation, the first move makes one page request,
    which throws the TypeError of reading [this.config.apiBaseUrl]; the
    walk yields nothing, leaves the world and the effects as they were
    (nothing is logged, nothing is sent) and is completed, so advancing it
    further changes nothing. *)
Theorem client_walk_fails_at_once (s0 : store) (n : nat) :
  this_config this = None ->
  let e := TypeError "Cannot read properties of undefined (reading 'apiBaseUrl')" in
  let fails (g : AsyncGenerator store Item) :=
    run (S n) g s0
    = ([Fetched (g_options g) (inl e); Thrown e],
       mkGenerator (g_request g) (g_options g) Done, s0) in
  (forall endpoint options,
      fails (paginated (fun o => pagedRequest this endpoint (Some o)) options))
  /\ (forall targetUrl options s g s',
         listProjects this targetUrl options s = (inr g, s') -> fails g)
  /\ (forall targetUrl s g s', listGroups this targetUrl s = (inr g, s') -> fails g)
  /\ (forall targetUrl options s g s',
         listUsers this targetUrl options s = (inr g, s') -> fails g).
Proof.
  intros H e fails.
  assert (Hw : forall endpoint options,
             fails (paginated (fun o => pagedRequest this endpoint (Some o)) options)).
  { intros endpoint options. exact (walk_undefined_config endpoint options s0 n H). }
  split; [exact Hw|]. split; [|split].
  - intros targetUrl options s g s' E.
    unfold listProjects, getIntegration, bind, lift, ret, throw in E.
    destruct (byUrl this targetUrl) as [integration|]; [|discriminate E].
    destruct (parseGroupUrl targetUrl (baseUrl (config integration))) as [err|group];
      [discriminate E|].
    destruct (truthy (group_of group)); injection E as <- _; apply Hw.
  - intros targetUrl s g s' E.
    unfold listGroups, getIntegration, bind, ret, throw in E.
    destruct (byUrl this targetUrl) as [integration|]; [|discriminate E].
    injection E as <- _. apply Hw.
  - intros targetUrl options s g s' E.
    unfold listUsers, getIntegration, bind, lift, ret, throw in E.
    destruct (byUrl this targetUrl) as [integration|]; [|discriminate E].
    destruct (parseGroupUrl targetUrl (baseUrl (config integration))) as [err|group];
      [discriminate E|].
    destruct (truthy (group_of group)); [injection E as <- _; apply Hw|].
    destruct (negb (host (config integration) =? "gitlab.com")%string); [discriminate E|].
    injection E as <- _. apply Hw.
Qed.

End ClientWalks.

(* ================================================================= *)
(** ** Further properties of the listing operations *)

Section ListingsFurther.

Context {I : Imports}.

Variable this : GitLabClient.

(** X1. Without an integration for the target URL, every listing
    operation fails at once with an InputError whose message names the
    URL: [parseGroupUrl] is not consulted, no generator is made, and
    nothing is logged or requested. *)
Theorem listing_without_integration (targetUrl : string) (s : store) :
  byUrl this targetUrl = None ->
  exists e,
    name e = "InputError"
    /\ contains (message e) targetUrl
    /\ (forall options, listProjects this targetUrl options s = (inl e, s))
    /\ listGroups this targetUrl s = (inl e, s)
    /\ (forall options, listUsers this targetUrl options s = (inl e, s)).
Proof.
  intros Hby.
  exists (InputError ("No GitLab integration found for URL " ++ targetUrl
                      ++ ", Please add a configuration entry for it under integrations.gitlab.")).
  split; [reflexivity|]. split.
  - exists "No GitLab integration found for URL ". eexists. reflexivity.
  - repeat split; intros;
      unfold listProjects, listGroups, listUsers, getIntegration, bind, throw;
      now rewrite Hby.
Qed.

(** X2. [listGroups] looks at the integration only: it never consults
    [parseGroupUrl], so it succeeds even for a target URL on which
    [listProjects] and [listUsers] fail with the error of [parseGroupUrl],
    and any two URLs of one integration give the same walk. The walk is
    the one over the endpoint made of the API base URL of the integration
    and [/groups], starting from [per_page: 100]: every page request of it
    is a call of [pagedRequest] for that endpoint, which asks [request]
    for the endpoint followed by [?per_page=100] and then by the page
    parameter or by nothing. *)
Theorem listGroups_requests (targetUrl : string) (s : store)
  (integration : GitLabIntegration) :
  byUrl this targetUrl = Some integration ->
  let endpoint := apiBaseUrl (config integration) ++ "/groups" in
  let groups :=
    paginated (fun options => pagedRequest this endpoint (Some options))
      [("per_page", VNumber (Int 100))] in
  listGroups this targetUrl s = (inr groups, s)
  /\ (forall other, byUrl this other = Some integration ->
                    listGroups this other s = listGroups this targetUrl s)
  /\ (forall e, parseGroupUrl targetUrl (baseUrl (config integration)) = inl e ->
                (forall options, listProjects this targetUrl options s = (inl e, s))
                /\ (forall options, listUsers this targetUrl options s = (inl e, s)))
  /\ forall n s0,
       let r := run n groups s0 in
       g_request (generator_of r) = (fun options => pagedRequest this endpoint (Some options))
       /\ Forall (fun f =>
                    get (fst f) "per_page" = VNumber (Int 100)
                    /\ (exists s1 s2,
                           pagedRequest this endpoint (Some (fst f)) s1 = (snd f, s2))
                    /\ exists rest,
                         (rest = EmptyString \/ exists str, rest = "&page=" ++ str)
                         /\ pagedRequest this endpoint (Some (fst f))
                            = page_from this (endpoint ++ "?per_page=100" ++ rest))
            (fetches (trace_of r)).
Proof.
  intros Hby endpoint groups.
  assert (Hg : forall u, byUrl this u = Some integration ->
                         listGroups this u s = (inr groups, s)).
  { intros u Hu. unfold listGroups, getIntegration, bind, ret. now rewrite Hu. }
  split; [now apply Hg|]. split; [intros other Ho; now rewrite !Hg|].
  split.
  - intros e He. split; intros options;
      unfold listProjects, listUsers, getIntegration, bind, ret, lift;
      now rewrite Hby, He.
  - intros n s0 r.
    assert (Hnew : ~ In "page" (keys [("per_page", VNumber (Int 100))])).
    { intros [H|[]]. discriminate H. }
    pose proof (walk_queries (fun options => pagedRequest this endpoint (Some options))
                  [("per_page", VNumber (Int 100))] s0 n "?per_page=100" Hnew eq_refl) as Hq.
    fold groups in Hq. fold r in Hq.
    destruct r as [[tr g'] s'] eqn:E. subst r.
    unfold generator_of, trace_of in *; simpl in *.
    destruct (walk_invariant_holds _ _ n s0 s' tr g' E) as (Hrq & _).
    split; [exact Hrq|].
    pose proof (calls_of_walk _ _ n s0 s' tr g' E) as Hcalls.
    apply Forall_forall. intros f Hin.
    rewrite Forall_forall in Hq, Hcalls.
    destruct (Hq f Hin) as (Hkeys & rest & Hrest & HQ).
    split; [now rewrite Hkeys|]. split; [exact (Hcalls f Hin)|].
    exists rest. split; [exact Hrest|].
    exact (pagedRequest_path this endpoint (Some (fst f)) _ HQ).
Qed.


End ListingsFurther.

(* ================================================================= *)
(** ** The group path inside an endpoint *)

Lemma uri_component_byte_plain (c b : ascii) :
  mem_char c "/?#&= " = true -> count_char c (uri_component_byte b) = O.
Proof.
  intros Hc.
  assert (Hc' : c = "/"%char \/ c = "?"%char \/ c = "#"%char \/ c = "&"%char
                \/ c = "="%char \/ c = " "%char).
  { simpl in Hc. rewrite !orb_true_iff in Hc.
    repeat (destruct Hc as [Hc|Hc]; [apply Ascii.eqb_eq in Hc; tauto|]).
    discriminate Hc. }
  destruct Hc' as [->|[->|[->|[->|[->| ->]]]]];
    destruct b as [[|] [|] [|] [|] [|] [|] [|] [|]]; reflexivity.
Qed.

Lemma encodeURIComponent_plain (c : ascii) (s : string) :
  mem_char c "/?#&= " = true -> count_char c (encodeURIComponent s) = O.
Proof.
  intros Hc. induction s as [|b s IH]; [reflexivity|].
  unfold encodeURIComponent in *. simpl.
  now rewrite count_char_app, uri_component_byte_plain, IH.
Qed.

Lemma hex_digit_inj (n m : N) :
  (n < 16)%N -> (m < 16)%N -> hex_digit n = hex_digit m -> n = m.
Proof.
  intros Hn Hm H. apply (f_equal N_of_ascii) in H. unfold hex_digit in H.
  destruct (N.ltb_spec n 10), (N.ltb_spec m 10);
    rewrite !N_ascii_embedding in H by lia; lia.
Qed.

Lemma percent_inj (a b : ascii) : percent a = percent b -> a = b.
Proof.
  unfold percent. intros [= H1 H2].
  pose proof (N_ascii_bounded a) as Ha. pose proof (N_ascii_bounded b) as Hb.
  fold (code a) in Ha. fold (code b) in Hb.
  apply hex_digit_inj in H1;
    [|apply N.Div0.div_lt_upper_bound; lia | apply N.Div0.div_lt_upper_bound; lia].
  apply hex_digit_inj in H2; [|apply N.mod_lt; lia | apply N.mod_lt; lia].
  assert (E : code a = code b).
  { rewrite (N.div_mod (code a) 16), (N.div_mod (code b) 16) by lia. now rewrite H1, H2. }
  unfold code in E. rewrite <- (ascii_N_embedding a), <- (ascii_N_embedding b). now rewrite E.
Qed.

Lemma uri_component_byte_split (a b : ascii) (r1 r2 : string) :
  uri_component_byte a ++ r1 = uri_component_byte b ++ r2 -> a = b /\ r1 = r2.
Proof.
  unfold uri_component_byte.
  destruct (is_alnum a || mem_char a "-_.!~*'()") eqn:Ea,
           (is_alnum b || mem_char b "-_.!~*'()") eqn:Eb; simpl; intros H.
  - now injection H as -> ->.
  - injection H as -> _. discriminate Ea.
  - injection H as <- _. discriminate Eb.
  - injection H as H1 H2 H3. split; [|exact H3].
    apply percent_inj. unfold percent. now rewrite H1, H2.
Qed.

Lemma uri_component_byte_not_empty (a : ascii) (r : string) :
  uri_component_byte a ++ r <> EmptyString.
Proof.
  unfold uri_component_byte.
  now destruct (is_alnum a || mem_char a "-_.!~*'()").
Qed.

Lemma encodeURIComponent_inj (s1 : string) :
  forall s2, encodeURIComponent s1 = encodeURIComponent s2 -> s1 = s2.
Proof.
  unfold encodeURIComponent.
  induction s1 as [|a s1 IH]; intros [|b s2] H; simpl in H.
  - reflexivity.
  - symmetry in H. now apply uri_component_byte_not_empty in H.
  - now apply uri_component_byte_not_empty in H.
  - apply uri_component_byte_split in H as [-> H]. f_equal. now apply IH.
Qed.

(** Two strings free of slashes, each followed by a slash: the first
    slash tells where they end. *)
Lemma split_at_slash (x1 : string) :
  forall x2 y1 y2,
    count_char "/" x1 = O -> count_char "/" x2 = O ->
    x1 ++ String "/" y1 = x2 ++ String "/" y2 -> x1 = x2 /\ y1 = y2.
Proof.
  induction x1 as [|a x1 IH]; intros [|b x2] y1 y2 H1 H2 H;
    cbn [count_char String.append] in *.
  - now injection H as ->.
  - injection H as <- _. rewrite Ascii.eqb_refl in H2. discriminate H2.
  - injection H as -> _. rewrite Ascii.eqb_refl in H1. discriminate H1.
  - injection H as -> H.
    destruct ("/" =? b)%char; [discriminate H1|].
    destruct (IH x2 y1 y2 H1 H2 H) as [-> ->]. now split.
Qed.

(** X13. The group path is one path segment of the endpoint, and the
    endpoint tells the group: [encodeURIComponent] leaves no slash,
    question mark, hash, ampersand, equals sign or space in the group
    path, maps different paths to different segments, and so the members
    endpoints of two groups, and likewise their projects endpoints, are
    equal only for the same group and the same suffix. A subgroup path
    such as [a/b] is never read as the group [a]. *)
Theorem group_endpoints_tell_groups :
  (forall g c, mem_char c "/?#&= " = true -> count_char c (encodeURIComponent g) = O)
  /\ (forall g1 g2, encodeURIComponent g1 = encodeURIComponent g2 -> g1 = g2)
  /\ (forall g1 g2 suffix1 suffix2,
         "/groups/" ++ encodeURIComponent g1 ++ "/members" ++ suffix1
         = "/groups/" ++ encodeURIComponent g2 ++ "/members" ++ suffix2 ->
         g1 = g2 /\ suffix1 = suffix2)
  /\ (forall base g1 g2,
         base ++ "/groups/" ++ encodeURIComponent g1 ++ "/projects"
         = base ++ "/groups/" ++ encodeURIComponent g2 ++ "/projects" ->
         g1 = g2).
Proof.
  split; [intros g c; apply encodeURIComponent_plain|].
  split; [intros g1; apply encodeURIComponent_inj|].
  split.
  - intros g1 g2 suffix1 suffix2 H.
    assert (H' : encodeURIComponent g1 ++ String "/" ("members" ++ suffix1)
                 = encodeURIComponent g2 ++ String "/" ("members" ++ suffix2)).
    { simpl in H. now injection H. }
    apply split_at_slash in H' as [Hg Hs];
      [|now apply encodeURIComponent_plain | now apply encodeURIComponent_plain].
    split; [now apply encodeURIComponent_inj|].
    simpl in Hs. now injection Hs.
  - intros base g1 g2 H.
    assert (H' : encodeURIComponent g1 ++ String "/" "projects"
                 = encodeURIComponent g2 ++ String "/" "projects").
    { induction base as [|c base IH]; simpl in H; [now injection H|].
      injection H as H. now apply IH. }
    apply split_at_slash in H' as [Hg _];
      [|now apply encodeURIComponent_plain | now apply encodeURIComponent_plain].
    now apply encodeURIComponent_inj.
Qed.

(* ================================================================= *)
(** ** The further properties in the concrete world *)

Section ConcreteFurther.

#[local] Existing Instance Demo.imports.

(** The first page of the users of gitlab.com names page 2. *)
Lemma next_page_round_trip_witness :
  let o := [("active", VBoolean true); ("per_page", VNumber (Int 100))] in
  let q := "?active=true&per_page=100" in
  let response := Demo.page 200 "OK" [("x-next-page", "2")] ["alice"; "bob"] in
  let page := paged_response response ["alice"; "bob"] in
  ~ In "page" (keys o)
  /\ listOptionsToQueryString (Some o) = inr q
  /\ headers_get (headers response) "x-next-page" = Some (digits 2)
  /\ (2 <= 9007199254740992)%Z
  /\ page = mkPaged ["alice"; "bob"] (VNumber (Int 2))
  /\ (forall (request : ListOptions -> M store (PagedResponse Item)) (s s' : store),
         request o s = (inr page, s') ->
         let r := run 4 (paginated request o) s in
         g_options (generator_of r) = set o "page" (VNumber (Int 2))
         /\ g_control (generator_of r) = Loop
         /\ yielded (trace_of r) = ["alice"; "bob"])
  /\ listOptionsToQueryString (Some (set o "page" (VNumber (Int 2))))
     = inr (q ++ (if (q =? EmptyString)%string then "?" else "&") ++ "page=" ++ digits 2).
Proof.
  intros o q response page.
  assert (Hnew : ~ In "page" (keys o)).
  { intros [H|[H|[]]]; discriminate H. }
  assert (Hsafe : (2 <= 9007199254740992)%Z) by lia.
  split; [exact Hnew|]. do 2 (split; [reflexivity|]). split; [exact Hsafe|].
  exact (next_page_round_trip o q response ["alice"; "bob"] 2%positive Hnew eq_refl
           eq_refl Hsafe).
Defined.

(** A request for the projects of gitlab.com. *)
Lemma request_never_reaches_transport_witness :
  let this := Demo.saas_client in
  let options := Some [("per_page", VNumber (Int 100))] in
  let e := TypeError "Cannot read properties of undefined (reading 'apiBaseUrl')" in
  this_config this = None
  /\ request this "/projects" None Demo.start = (inl e, Demo.start)
  /\ pagedRequest this "/projects" options Demo.start = (inl e, Demo.start)
  /\ (forall response s', request this "/projects" None Demo.start <> (inr response, s'))
  /\ (forall page s', pagedRequest this "/projects" options Demo.start <> (inr page, s')).
Proof.
  intros this options e.
  split; [reflexivity|].
  exact (request_never_reaches_transport this "/projects" None options Demo.start eq_refl).
Defined.

(** Options asking for page 0 and for members that are not blocked. *)
Lemma pagedRequest_falsy_options_witness :
  let o := [("page", VNumber (Int 0)); ("blocked", VBoolean false)] in
  (forall key, truthy (get o key) = false)
  /\ pagedRequest Demo.saas_client "/projects" (Some o) Demo.start
     = pagedRequest Demo.saas_client "/projects" None Demo.start
  /\ listOptionsToQueryString (Some o) = inr EmptyString
  /\ pagedRequest Demo.saas_client "/projects" (Some o)
     = page_from Demo.saas_client "/projects"
  /\ pagedRequest Demo.saas_client "/projects" None = page_from Demo.saas_client "/projects".
Proof.
  intros o.
  assert (H : forall key, truthy (get o key) = false).
  { intros key. unfold o. cbn [get].
    destruct ("page" =? key)%string; [reflexivity|].
    now destruct ("blocked" =? key)%string. }
  split; [exact H|].
  exact (pagedRequest_falsy_options Demo.saas_client "/projects" o Demo.start H).
Defined.

(** The users of gitlab.com, through a client that the constructor made. *)
Lemma client_walk_fails_at_once_witness :
  let this := Demo.saas_client in
  let e := TypeError "Cannot read properties of undefined (reading 'apiBaseUrl')" in
  let fails (g : AsyncGenerator store Item) :=
    run 3 g Demo.start
    = ([Fetched (g_options g) (inl e); Thrown e],
       mkGenerator (g_request g) (g_options g) Done, Demo.start) in
  this_config this = None
  /\ (forall endpoint options,
         fails (paginated (fun o => pagedRequest this endpoint (Some o)) options))
  /\ (forall targetUrl options s g s',
         listProjects this targetUrl options s = (inr g, s') -> fails g)
  /\ (forall targetUrl s g s', listGroups this targetUrl s = (inr g, s') -> fails g)
  /\ (forall targetUrl options s g s',
         listUsers this targetUrl options s = (inr g, s') -> fails g).
Proof.
  intros this e fails.
  split; [reflexivity|].
  exact (client_walk_fails_at_once this Demo.start 2 eq_refl).
Defined.

(** A target URL that no integration covers. *)
Lemma listing_without_integration_witness :
  byUrl Demo.saas_client "https://example.org/team" = None
  /\ exists e,
       name e = "InputError"
       /\ contains (message e) "https://example.org/team"
       /\ (forall options,
              listProjects Demo.saas_client "https://example.org/team" options Demo.start
              = (inl e, Demo.start))
       /\ listGroups Demo.saas_client "https://example.org/team" Demo.start
          = (inl e, Demo.start)
       /\ (forall options,
              listUsers Demo.saas_client "https://example.org/team" options Demo.start
              = (inl e, Demo.start)).
Proof.
  split; [reflexivity|].
  exact (listing_without_integration Demo.saas_client "https://example.org/team"
           Demo.start eq_refl).
Defined.

(** The groups of gitlab.com, asked for through the URL of a group. *)
Lemma listGroups_requests_witness :
  let this := Demo.saas_client in
  let targetUrl := "https://gitlab.com/team" in
  let integration := mkIntegration Demo.saas in
  let endpoint := apiBaseUrl (config integration) ++ "/groups" in
  let groups :=
    paginated (fun options => pagedRequest this endpoint (Some options))
      [("per_page", VNumber (Int 100))] in
  byUrl this targetUrl = Some integration
  /\ listGroups this targetUrl Demo.start = (inr groups, Demo.start)
  /\ (forall other, byUrl this other = Some integration ->
                    listGroups this other Demo.start = listGroups this targetUrl Demo.start)
  /\ (forall e, parseGroupUrl targetUrl (baseUrl (config integration)) = inl e ->
                (forall options, listProjects this targetUrl options Demo.start
                                 = (inl e, Demo.start))
                /\ (forall options, listUsers this targetUrl options Demo.start
                                    = (inl e, Demo.start)))
  /\ forall n s0,
       let r := run n groups s0 in
       g_request (generator_of r) = (fun options => pagedRequest this endpoint (Some options))
       /\ Forall (fun f =>
                    get (fst f) "per_page" = VNumber (Int 100)
                    /\ (exists s1 s2,
                           pagedRequest this endpoint (Some (fst f)) s1 = (snd f, s2))
                    /\ exists rest,
                         (rest = EmptyString \/ exists str, rest = "&page=" ++ str)
                         /\ pagedRequest this endpoint (Some (fst f))
                            = page_from this (endpoint ++ "?per_page=100" ++ rest))
            (fetches (trace_of r)).
Proof.
  intros this targetUrl integration endpoint groups.
  split; [reflexivity|].
  exact (listGroups_requests this targetUrl Demo.start integration eq_refl).
Defined.


End ConcreteFurther.

(* ================================================================= *)
(** ** The options of a project listing, and the options after a walk *)

Section ProjectsFurther.

Context {I : Imports}.

Variable this : GitLabClient.

(** The walk that [listProjects] returns and its page requests. *)
Lemma listProjects_walk (targetUrl : string) (options : option ProjectsOptions)
  (s : store) (integration : GitLabIntegration) (group : option string) :
  byUrl this targetUrl = Some integration ->
  parseGroupUrl targetUrl (baseUrl (config integration)) = inr group ->
  let grouped := truthy (group_of group) in
  let endpoint :=
    if grouped then
      apiBaseUrl (config integration) ++ "/groups/"
      ++ encodeURIComponent (match group with Some g => g | None => EmptyString end)
      ++ "/projects"
    else "/projects" in
  let initial :=
    ([("per_page", VNumber (Int 100))]
     ++ (if grouped then [("include_subgroups", VBoolean true)] else [])
     ++ spread_if (opt_last_activity_after options) "last_activity_after"
          (opt_last_activity_after options))%list in
  let projects := paginated (fun o => pagedRequest this endpoint (Some o)) initial in
  listProjects this targetUrl options s = (inr projects, s)
  /\ listOptionsToQueryString (Some initial) = inr (projects_query grouped options)
  /\ forall n s0,
       let r := run n projects s0 in
       g_request (generator_of r) = (fun o => pagedRequest this endpoint (Some o))
       /\ Forall (fun f =>
                    (exists s1 s2, pagedRequest this endpoint (Some (fst f)) s1 = (snd f, s2))
                    /\ (forall key, key <> "page" -> get (fst f) key = get initial key)
                    /\ exists rest,
                         (rest = EmptyString \/ exists str, rest = "&page=" ++ str)
                         /\ listOptionsToQueryString (Some (fst f))
                            = inr (projects_query grouped options ++ rest)
                         /\ pagedRequest this endpoint (Some (fst f))
                            = page_from this
                                (endpoint ++ projects_query grouped options ++ rest))
            (fetches (trace_of r)).
Proof.
  intros Hby Hparse grouped endpoint initial projects.
  assert (Hq : listOptionsToQueryString (Some initial) = inr (projects_query grouped options)).
  { subst initial. unfold projects_query.
    destruct grouped; destruct options as [[[[|c d]|]]|]; reflexivity. }
  assert (Hnew : ~ In "page" (keys initial)).
  { subst initial.
    destruct grouped; destruct options as [[[[|c d]|]]|]; simpl; intuition discriminate. }
  split; [|split; [exact Hq|]].
  - rewrite (listProjects_endpoints this targetUrl options s integration group Hby Hparse).
    subst projects endpoint initial grouped.
    now destruct (truthy (group_of group)).
  - intros n s0 r.
    pose proof (walk_queries (fun o => pagedRequest this endpoint (Some o)) initial s0 n
                  _ Hnew Hq) as Hw.
    fold projects in Hw. fold r in Hw.
    destruct r as [[tr g'] s'] eqn:E. subst r.
    unfold generator_of, trace_of in *; simpl in *.
    destruct (walk_invariant_holds _ _ n s0 s' tr g' E) as (Hrq & _).
    split; [exact Hrq|].
    pose proof (calls_of_walk _ _ n s0 s' tr g' E) as Hcalls.
    apply Forall_forall. intros f Hin.
    rewrite Forall_forall in Hw, Hcalls.
    destruct (Hw f Hin) as (Hkeys & rest & Hrest & HQ).
    split; [exact (Hcalls f Hin)|]. split; [exact Hkeys|].
    exists rest. split; [|split; [exact HQ|]].
    + destruct Hrest as [->|(str & ->)]; [now left|]. right. exists str.
      unfold projects_query. reflexivity.
    + exact (pagedRequest_path this endpoint (Some (fst f)) _ HQ).
Qed.


(** X16. The date of a project listing. When [last_activity_after] is
    given and is not empty, every page request of the walk that
    [listProjects] returns carries it: the path that the call of
    [pagedRequest] asks [request] for is the endpoint, then
    [?per_page=100], then [&include_subgroups=true] for a group URL, then
    [&last_activity_after=] with the form-encoded date, then the page
    parameter or nothing. An empty date is the same as no date: the
    parameter is left out. *)
Theorem listProjects_query_strings (targetUrl : string) (options : option ProjectsOptions)
  (s : store) (integration : GitLabIntegration) (group : option string) :
  byUrl this targetUrl = Some integration ->
  parseGroupUrl targetUrl (baseUrl (config integration)) = inr group ->
  let grouped := truthy (group_of group) in
  let endpoint :=
    if grouped then
      apiBaseUrl (config integration) ++ "/groups/"
      ++ encodeURIComponent (match group with Some g => g | None => EmptyString end)
      ++ "/projects"
    else "/projects" in
  let q :=
    "?per_page=100"
    ++ (if grouped then "&include_subgroups=true" else EmptyString)
    ++ match options with
       | Some {| last_activity_after := Some (String c d) |} =>
           "&last_activity_after=" ++ urlencoded (String c d)
       | _ => EmptyString
       end in
  exists projects,
    listProjects this targetUrl options s = (inr projects, s)
    /\ g_request projects = (fun o => pagedRequest this endpoint (Some o))
    /\ listOptionsToQueryString (Some (g_options projects)) = inr q
    /\ listProjects this targetUrl (Some (mkProjectsOptions (Some EmptyString))) s
       = listProjects this targetUrl None s
    /\ forall n s0,
         Forall (fun f =>
                   get (fst f) "last_activity_after"
                   = match options with
                     | Some {| last_activity_after := Some (String c d) |} =>
                         VString (String c d)
                     | _ => VUndefined
                     end
                   /\ exists rest,
                        (rest = EmptyString \/ exists str, rest = "&page=" ++ str)
                        /\ listOptionsToQueryString (Some (fst f)) = inr (q ++ rest)
                        /\ pagedRequest this endpoint (Some (fst f))
                           = page_from this (endpoint ++ q ++ rest))
           (fetches (trace_of (run n projects s0))).
Proof.
  intros Hby Hparse grouped endpoint q.
  destruct (listProjects_walk targetUrl options s integration group Hby Hparse)
    as (Hlist & Hq & Hwalk).
  fold grouped endpoint in Hlist, Hq, Hwalk.
  eexists. split; [exact Hlist|]. split; [reflexivity|]. split; [exact Hq|].
  split.
  - rewrite (listProjects_endpoints this targetUrl _ s integration group Hby Hparse).
    now rewrite (listProjects_endpoints this targetUrl None s integration group Hby Hparse).
  - intros n s0. destruct (Hwalk n s0) as (_ & Hf).
    revert Hf. apply Forall_impl.
    intros f (_ & Hkeys & rest & Hrest & HQ & Hpath).
    split.
    + rewrite Hkeys by discriminate.
      destruct grouped; cbn [app get String.eqb Ascii.eqb Bool.eqb]; unfold spread_if;
        destruct options as [[[[|c d]|]]|]; reflexivity.
    + exists rest. split; [exact Hrest|]. split; [exact HQ | exact Hpath].
Qed.

End ProjectsFurther.

(** X17. Once a walk has returned, the options object is left with a
    falsy [page]: the last next-page value. A new walk over the same
    object therefore asks for the first page again: if the options had no
    [page] key at the start, their query string after the walk is the one
    they had before it. *)
Theorem paginated_leaves_no_cursor {W T : Type}
  (request : ListOptions -> M W (PagedResponse T)) (options : ListOptions)
  (s : W) (n : nat) :
  let r := run n (paginated request options) s in
  In Returned (trace_of r) ->
  g_control (generator_of r) = Done
  /\ truthy (get (g_options (generator_of r)) "page") = false
  /\ (~ In "page" (keys options) ->
      listOptionsToQueryString (Some (g_options (generator_of r)))
      = listOptionsToQueryString (Some options)).
Proof.
  intros r. destruct r as [[tr g'] s'] eqn:E. subst r.
  unfold generator_of, trace_of; simpl. intros Hret.
  destruct (walk_invariant_holds request options n s s' tr g' E) as (_ & Ho & _ & Hk).
  destruct (g_control g') as [|rest next|].
  - now destruct Hk as (_ & Hn & _).
  - now destruct Hk as (_ & Hn & _).
  - destruct Hk as [(fs & o & res & Hf & Hfalsy & _)|(_ & _ & _ & _ & _ & Hn)];
      [|contradiction].
    split; [reflexivity|].
    assert (Hopt : g_options g' = set (final_options options fs) "page" (nextPage res)).
    { rewrite Ho, Hf. apply final_options_ok. }
    assert (Hshape : g_options g' = set options "page" (nextPage res)).
    { rewrite Hopt.
      destruct (final_options_shape fs options) as [->|(v & ->)]; [reflexivity|].
      apply set_set. }
    split.
    + rewrite Hshape, get_set_same. exact Hfalsy.
    + intros Hnew.
      destruct (listOptionsToQueryString_total (Some options)) as (q & Hq).
      rewrite Hshape, Hq.
      now apply (query_with_page options (nextPage res) q Hnew Hq).
Qed.

(** The walk over three pages, to its end. *)
Lemma paginated_leaves_no_cursor_witness :
  let request := Demo.serve_pages Demo.three_pages in
  let options := [("per_page", VNumber (Int 100))] in
  let r := run 11 (paginated request options) O in
  In Returned (trace_of r)
  /\ g_control (generator_of r) = Done
  /\ truthy (get (g_options (generator_of r)) "page") = false
  /\ (~ In "page" (keys options) ->
      listOptionsToQueryString (Some (g_options (generator_of r)))
      = listOptionsToQueryString (Some options)).
Proof.
  intros request options r.
  assert (Hret : In Returned (trace_of r)).
  { vm_compute. do 8 right. now left. }
  split; [exact Hret|].
  exact (paginated_leaves_no_cursor request options O 11 Hret).
Defined.

Section ConcreteProjects.

#[local] Existing Instance Demo.imports.


(** The projects of the group [team], active after a date. *)
Lemma listProjects_query_strings_witness :
  let this := Demo.self_managed_client in
  let targetUrl := "https://gitlab.example.com/team" in
  let integration := mkIntegration Demo.self_managed in
  let options := Some (mkProjectsOptions (Some "2021-06-01T00:00:00Z")) in
  let endpoint := "https://gitlab.example.com/api/v4/groups/team/projects" in
  let q := "?per_page=100&include_subgroups=true&last_activity_after=2021-06-01T00%3A00%3A00Z" in
  byUrl this targetUrl = Some integration
  /\ parseGroupUrl targetUrl (baseUrl (config integration)) = inr (Some "team")
  /\ exists projects,
       listProjects this targetUrl options Demo.start = (inr projects, Demo.start)
       /\ g_request projects = (fun o => pagedRequest this endpoint (Some o))
       /\ listOptionsToQueryString (Some (g_options projects)) = inr q
       /\ listProjects this targetUrl (Some (mkProjectsOptions (Some EmptyString))) Demo.start
          = listProjects this targetUrl None Demo.start
       /\ forall n s0,
            Forall (fun f =>
                      get (fst f) "last_activity_after" = VString "2021-06-01T00:00:00Z"
                      /\ exists rest,
                           (rest = EmptyString \/ exists str, rest = "&page=" ++ str)
                           /\ listOptionsToQueryString (Some (fst f)) = inr (q ++ rest)
                           /\ pagedRequest this endpoint (Some (fst f))
                              = page_from this (endpoint ++ q ++ rest))
              (fetches (trace_of (run n projects s0))).
Proof.
  intros this targetUrl integration options endpoint q.
  split; [reflexivity|]. split; [reflexivity|].
  exact (listProjects_query_strings this targetUrl options Demo.start integration
           (Some "team") eq_refl eq_refl).
Defined.

End ConcreteProjects.
